(** * sd-local, package [launch]: the build-entry assembler and the docker runner

    A shallow embedding of [launch/docker.go] and [launch/launch.go].

    - Go strings are [string], Go [int] is [Z], [map[string]string] is
      [gmap string string], slices are lists.
    - An [error] value is represented by its message ([err.Error()]); the Go
      [nil] error is [None].
    - Functions of the Go standard library that the package calls
      ([url.Parse], [URL.String], [path.Join], [filepath.Join],
      [json.Marshal]) are the fields of the class [GoLib]; the operating
      system (process start and exit, signal delivery, [exec.LookPath]) is the
      record [Env].
    - The runner's methods run in the monad [M]: explicit passing of a [World]
      (the [docker] object, the allocated [exec.Cmd] objects and the trace of
      observable events), with three ways of not returning normally. *)

From Stdlib Require Import ZArith Ascii DecimalString.
From stdpp Require Import base gmap strings list sorting.

Local Open Scope Z_scope.

(** ** Basic Go types *)

(** An [error], by its message. *)
Definition error := string.

(** [strconv.Itoa], also the [%v] verb of [fmt] on an [int]. *)
Definition itoa (i : Z) : string := NilZero.string_of_int (Z.to_int i).

(** [strings.Join]. *)
Fixpoint strings_Join (elems : list string) (sep : string) : string :=
  match elems with
  | [] => ""
  | [e] => e
  | e :: rest => e +:+ sep +:+ strings_Join rest sep
  end.

(** [os.Signal] is an interface; [syscall.Signal] (an [int]) is the
    implementation the type switch of [signum] knows. *)
Inductive Signal :=
| SyscallSignal (n : Z)
| OtherSignal (name : string).

(** [logrus] levels used by the package. *)
Inductive Level := InfoLevel | WarnLevel | ErrorLevel.

(** [*exec.Cmd]: a pointer, here the index of the object in the heap. *)
Abbreviation CmdPtr := nat.

(** The two places that read [ProcessState]: the loop of [kill] and the loop
    of [waitForProcess]. *)
Inductive Site := InKill | InWait.

(** What the package does that can be seen from outside, in order. *)
Inductive Event :=
| EvLog (lvl : Level) (msg : string)          (* logrus.Infof / Warn *)
| EvCommand (c : CmdPtr) (argv : list string) (* execCommand(name, args...) *)
| EvAppend (c : CmdPtr)                       (* d.commands = append(d.commands, c) *)
| EvRun (c : CmdPtr) (err : option error)     (* c.Run() and its result *)
| EvStderr (out : string)                     (* io.Copy(os.Stderr, buf) *)
| EvLock                                      (* d.mutex.Lock() *)
| EvUnlock                                    (* d.mutex.Unlock() *)
| EvProcessState (at_ : Site) (v : CmdPtr) (exited : bool)
    (* a read of v.ProcessState at this place; true: it is not nil *)
| EvSignal (v : CmdPtr) (sig : Signal) (err : option error)
    (* v.Process.Signal(sig) and its result *)
| EvKill (v c : CmdPtr) (argv : list string)
    (* c is the command execCommand("sudo", "kill", ...) made to reach v *)
| EvDelivered (v : CmdPtr) (err : option error)
    (* in kill, the value of err once the signal has been sent to v *)
| EvTick                                      (* <-t.C *)
| EvWait (cmds : list CmdPtr).                (* entry of waitForProcess(cmds) *)

(** ** The monad of the methods *)

(** How a call ends: it returns; it is parked for ever in
    [d.mutex.Lock()]; it panics; or the model ran out of fuel. *)
Inductive Outcome (S A : Type) :=
| Returns (a : A) (s : S)
| Blocks (s : S)
| Panics (msg : string) (s : S)
| OutOfFuel (s : S).
Global Arguments Returns {S A} a s.
Global Arguments Blocks {S A} s.
Global Arguments Panics {S A} msg s.
Global Arguments OutOfFuel {S A} s.

Definition M (S A : Type) : Type := S -> Outcome S A.

Definition ret {S A} (a : A) : M S A := fun s => Returns a s.

Definition bind {S A B} (m : M S A) (k : A -> M S B) : M S B :=
  fun s =>
    match m s with
    | Returns a s' => k a s'
    | Blocks s' => Blocks s'
    | Panics msg s' => Panics msg s'
    | OutOfFuel s' => OutOfFuel s'
    end.

(** The state in which a call ends, however it ends. *)
Definition final {S A} (o : Outcome S A) : S :=
  match o with
  | Returns _ s | Blocks s | Panics _ s | OutOfFuel s => s
  end.

Notation "'do' x <- m ; k" := (bind m (fun x => k))
  (at level 10, x name, m at level 100, k at level 200,
   format "'[v' 'do'  x  <-  m ; '/' k ']'").

(** ** net/url *)

(** [url.URL], field by field. *)
Record URL := {
  Scheme : string;
  Opaque : string;
  User : option (string * option string);
  Host : string;
  Path : string;
  RawPath : string;
  OmitHost : bool;
  ForceQuery : bool;
  RawQuery : string;
  Fragment : string;
  RawFragment : string;
}.

(** The assignment [u.Path = p]. *)
Definition set_Path (u : URL) (p : string) : URL :=
  {| Scheme := Scheme u; Opaque := Opaque u; User := User u; Host := Host u;
     Path := p; RawPath := RawPath u; OmitHost := OmitHost u;
     ForceQuery := ForceQuery u; RawQuery := RawQuery u;
     Fragment := Fragment u; RawFragment := RawFragment u |}.

(** ** The data model of package [launch] *)

(** [EnvVar] is [map[string]string]; an absent key reads as the empty
    string. *)
Abbreviation EnvVar := (gmap string string).

Definition env_get (m : EnvVar) (k : string) : string := default "" (m !! k).

Section Launch.

(** The element type of [Meta] ([interface{}]) and [screwdriver.Step] are
    declared outside this package and only passed through. *)
Context {Any Step : Type}.

Abbreviation Meta := (gmap string Any).

(** The fields of [screwdriver.Job] that [createBuildEntry] reads. *)
Record Job := {
  Job_Steps : list Step;
  Job_Environment : EnvVar;
  Job_Image : string;
}.

(** The fields of [config.Entry] that the package reads. *)
Record Entry := {
  APIURL : string;
  StoreURL : string;
  Launcher_Image : string;
  Launcher_Version : string;
}.

Record buildEntry := {
  ID : Z;
  Environment : list EnvVar;
  EventID : Z;
  JobID : Z;
  ParentBuildID : list Z;
  Sha : string;
  Meta' : Meta;
  Steps : list Step;
  Image : string;
  JobName : string;
  ArtifactsPath : string;
  MemoryLimit : string;
  SrcPath : string;
  UseSudo : bool;
  UsePrivileged : bool;
}.

(** [Option]; a field whose name [buildEntry] also has is prefixed [Opt]. *)
Record Option := {
  OptJob : Job;
  OptEntry : Entry;
  OptJobName : string;
  JWT : string;
  OptArtifactsPath : string;
  Memory : string;
  OptSrcPath : string;
  OptionEnv : EnvVar;
  OptMeta : Meta;
  OptUseSudo : bool;
  OptUsePrivileged : bool;
  FlagVerbose : bool;
}.

(** The standard-library functions the package calls. *)
Class GoLib := {
  url_Parse : string -> URL + error;
  URL_String : URL -> string;
  path_Join : list string -> string;
  filepath_Join : list string -> string;
  json_Marshal : buildEntry -> string + error;
}.

Context `{GoLib}.

Definition apiVersion : string := "v4".
Definition storeVersion : string := "v1".
Definition defaultArtDir : string := "/sd/workspace/artifacts".

(** ** The assembler *)

(** [for k, v := range src { env[k] = v }]. *)
Definition copyInto (env src : EnvVar) : EnvVar :=
  map_fold (fun k v acc => <[k:=v]> acc) env src.

(** [mergeEnv]: the two loops write into [env] itself, which is returned as
    the only element of the slice. Its only caller passes a map literal for
    [env]; a nil [jobEnv] or [optionEnv] is ranged over like the empty map. *)
Definition mergeEnv (env jobEnv optionEnv : EnvVar) : list EnvVar :=
  let env := copyInto env jobEnv in
  let env := copyInto env optionEnv in
  [env].

(** The block [x, err := url.Parse(raw); if err == nil {...} else {Warn}]:
    the versioned URL and what is logged. *)
Definition versionedURL (raw version warning : string) : string * list Event :=
  match url_Parse raw with
  | inl a =>
      let a := set_Path a (path_Join [Path a; version]) in
      (URL_String a, [])
  | inr _ => (raw, [EvLog WarnLevel warning])
  end.

Definition defaultEnv (option : Option) (apiURL storeURL : string) : EnvVar :=
  <["SD_STORE_URL" := storeURL]>
    (<["SD_API_URL" := apiURL]>
      (<["SD_ARTIFACTS_DIR" := defaultArtDir]>
        (<["SD_TOKEN" := JWT option]> ∅))).

(** [createBuildEntry], with the warnings it logs. It has no error result. *)
Definition createBuildEntry (option : Option) : buildEntry * list Event :=
  let api :=
    versionedURL (APIURL (OptEntry option)) apiVersion
      "SD_API_URL is invalid. It may cause errors" in
  let store :=
    versionedURL (StoreURL (OptEntry option)) storeVersion
      "SD_STORE_URL is invalid. It may cause errors" in
  let defaultEnv := defaultEnv option api.1 store.1 in
  let env :=
    mergeEnv defaultEnv (Job_Environment (OptJob option)) (OptionEnv option) in
  ({| ID := 0;
      Environment := env;
      EventID := 0;
      JobID := 0;
      ParentBuildID := [0];
      Sha := "dummy";
      Meta' := OptMeta option;
      Steps := Job_Steps (OptJob option);
      Image := Job_Image (OptJob option);
      JobName := OptJobName option;
      ArtifactsPath := OptArtifactsPath option;
      MemoryLimit := Memory option;
      SrcPath := OptSrcPath option;
      UseSudo := OptUseSudo option;
      UsePrivileged := OptUsePrivileged option |},
   api.2 ++ store.2).

(** ** The operating system and the world of the runner *)

(** [cmd.Stdout] and [cmd.Stderr] as the package sets them. *)
Inductive Writer :=
| LogWriter (lvl : Level)   (* logrus.StandardLogger().WriterLevel(lvl) *)
| BufferWriter.             (* bytes.NewBuffer(nil) *)

(** The fields of [exec.Cmd] the package touches. [Process] is nil until the
    command has been started, [ProcessState] is nil until it has been waited
    for; [StderrBuf] is what the buffer behind [Stderr] has received. *)
Record Cmd := {
  Args : list string;
  Stdout : option Writer;
  Stderr : option Writer;
  Process : option Z;
  ProcessState : option string;
  StderrBuf : string;
}.

(** What [c.Run()] meets: the command cannot be started, or it runs as
    process [pid] to the end, leaving its state, the error of [Run] (nil, an
    [ExitError], ...) and what it wrote to standard error. *)
Inductive RunResult :=
| StartFails (err : error)
| Finishes (pid : Z) (state : string) (err : option error) (stderr : string).

(** The operating system. Time is the number of events so far. *)
Record Env := {
  lookPath : string -> string + error;
  (* exec.LookPath *)
  runs : CmdPtr -> list string -> RunResult;
  (* the fate of command [c] with this argv when it is run *)
  signals : nat -> Z -> Signal -> option error;
  (* the result of Signal(sig) on process [pid] at this time *)
  exitedBy : nat -> CmdPtr -> bool;
  (* another goroutine, inside c.Run(), has set c.ProcessState by this time *)
}.

(** The [docker] struct. [mutex] is the state of the [sync.Mutex] it points
    to: [true] when locked. *)
Record docker := {
  volume : string;
  habVolume : string;
  setupImage : string;
  setupImageVersion : string;
  useSudo : bool;
  commands : list CmdPtr;
  mutex : bool;
  flagVerbose : bool;
}.

Record World := {
  d : docker;
  heap : list Cmd;
  trace : list Event;
}.

(** ** Primitive steps *)

Variable env : Env.

Abbreviation Act := (M World).

Definition now (w : World) : nat := length (trace w).

Definition emit (e : Event) : Act unit :=
  fun w => Returns tt {| d := d w; heap := heap w; trace := trace w ++ [e] |}.

Definition get_d : Act docker := fun w => Returns (d w) w.

Definition panic {A} (msg : string) : Act A := fun w => Panics msg w.

Definition set_mutex (b : bool) : Act unit :=
  fun w =>
    let dk := d w in
    Returns tt
      {| d := {| volume := volume dk; habVolume := habVolume dk;
                 setupImage := setupImage dk;
                 setupImageVersion := setupImageVersion dk;
                 useSudo := useSudo dk; commands := commands dk;
                 mutex := b; flagVerbose := flagVerbose dk |};
         heap := heap w; trace := trace w |}.

(** [d.mutex.Lock()]. Nothing else in the package unlocks the mutex, so a
    second [Lock] on the locked mutex never returns. *)
Definition Lock : Act unit :=
  fun w =>
    if mutex (d w) then Blocks w
    else (do _ <- set_mutex true; emit EvLock) w.

(** [d.mutex.Unlock()]; unlocking an unlocked mutex is a fatal error of the
    runtime. *)
Definition Unlock : Act unit :=
  fun w =>
    if mutex (d w) then (do _ <- set_mutex false; emit EvUnlock) w
    else Panics "sync: unlock of unlocked mutex" w.

(** [d.commands = append(d.commands, cmd)]. *)
Definition append_command (c : CmdPtr) : Act unit :=
  fun w =>
    let dk := d w in
    Returns tt
      {| d := {| volume := volume dk; habVolume := habVolume dk;
                 setupImage := setupImage dk;
                 setupImageVersion := setupImageVersion dk;
                 useSudo := useSudo dk; commands := commands dk ++ [c];
                 mutex := mutex dk; flagVerbose := flagVerbose dk |};
         heap := heap w; trace := trace w ++ [EvAppend c] |}.

Definition deref (c : CmdPtr) : Act Cmd :=
  fun w =>
    match heap w !! c with
    | Some cmd => Returns cmd w
    | None => Panics "invalid memory address or nil pointer dereference" w
    end.

Definition store (c : CmdPtr) (cmd : Cmd) : Act unit :=
  fun w => Returns tt {| d := d w; heap := <[c := cmd]> (heap w); trace := trace w |}.

(** [execCommand(name, arg...)], that is [exec.Command]: a new [Cmd]. The
    command made to signal [v] is recorded as such. *)
Definition execCommand (target : option CmdPtr) (argv : list string) : Act CmdPtr :=
  fun w =>
    let c := length (heap w) in
    Returns c
      {| d := d w;
         heap := heap w ++ [{| Args := argv; Stdout := None; Stderr := None;
                               Process := None; ProcessState := None;
                               StderrBuf := "" |}];
         trace := trace w ++ [match target with
                              | Some v => EvKill v c argv
                              | None => EvCommand c argv
                              end] |}.

Definition set_Stdout (c : CmdPtr) (wr : Writer) : Act unit :=
  do cmd <- deref c;
  store c {| Args := Args cmd; Stdout := Some wr; Stderr := Stderr cmd;
             Process := Process cmd; ProcessState := ProcessState cmd;
             StderrBuf := StderrBuf cmd |}.

Definition set_Stderr (c : CmdPtr) (wr : Writer) : Act unit :=
  do cmd <- deref c;
  store c {| Args := Args cmd; Stdout := Stdout cmd; Stderr := Some wr;
             Process := Process cmd; ProcessState := ProcessState cmd;
             StderrBuf := StderrBuf cmd |}.

(** [c.Run()]: start the command and wait for it. *)
Definition Cmd_Run (c : CmdPtr) : Act (option error) :=
  do cmd <- deref c;
  match runs env c (Args cmd) with
  | StartFails err =>
      do _ <- emit (EvRun c (Some err));
      ret (Some err)
  | Finishes pid state err out =>
      do _ <- store c {| Args := Args cmd; Stdout := Stdout cmd;
                         Stderr := Stderr cmd; Process := Some pid;
                         ProcessState := Some state;
                         StderrBuf :=
                           match Stderr cmd with
                           | Some BufferWriter => out
                           | _ => StderrBuf cmd
                           end |};
      do _ <- emit (EvRun c err);
      ret err
  end.

(** A read of [v.ProcessState], compared with nil: the state is there when
    this goroutine has waited for the command, or when the goroutine that
    runs it has by now. *)
Definition exited (site : Site) (v : CmdPtr) : Act bool :=
  do cmd <- deref v;
  fun w =>
    let b := match ProcessState cmd with
             | Some _ => true
             | None => exitedBy env (now w) v
             end in
    (do _ <- emit (EvProcessState site v b); ret b) w.

(** [v.Process.Pid]; [v.Process] is nil when [v] has not been started. *)
Definition Process_Pid (v : CmdPtr) : Act Z :=
  do cmd <- deref v;
  match Process cmd with
  | Some pid => ret pid
  | None => panic "invalid memory address or nil pointer dereference"
  end.

(** [v.Process.Signal(sig)]. *)
Definition Process_Signal (v : CmdPtr) (sig : Signal) : Act (option error) :=
  do pid <- Process_Pid v;
  fun w =>
    let err := signals env (now w) pid sig in
    (do _ <- emit (EvSignal v sig err); ret err) w.

(** ** The docker runner *)

Definition ArtifactsDir : string := "sd-artifacts".
Definition LogFile : string := "builds.log".
Definition scmHost : string := "screwdriver.cd".
Definition orgRepo : string := "sd-local/local-build".

(** [newDocker]: the runner and the world it starts in. *)
Definition newDocker (setupImage setupImageVer : string)
    (useSudo flagVerbose : bool) : docker :=
  {| volume := "SD_LAUNCH_BIN";
     habVolume := "SD_LAUNCH_HAB";
     setupImage := setupImage;
     setupImageVersion := setupImageVer;
     useSudo := useSudo;
     commands := [];
     mutex := false;
     flagVerbose := flagVerbose |}.

Definition execDockerCommand (args : list string) : Act (option error) :=
  do dk <- get_d;
  let commands := "docker" :: args in
  let commands := if useSudo dk then "sudo" :: commands else commands in
  do cmd <- execCommand None commands;
  do _ <- (if flagVerbose dk then
             do _ <- emit (EvLog InfoLevel ("$ " +:+ strings_Join commands " "));
             set_Stdout cmd (LogWriter InfoLevel)
           else ret tt);
  do _ <- set_Stderr cmd (LogWriter ErrorLevel);
  do _ <- append_command cmd;
  do _ <- set_Stderr cmd BufferWriter;
  do err <- Cmd_Run cmd;
  match err with
  | Some e =>
      do c <- deref cmd;
      do _ <- emit (EvStderr (StderrBuf c));
      ret (Some e)
  | None => ret None
  end.

Definition setupBin : Act (option error) :=
  do dk <- get_d;
  do err <- execDockerCommand ["volume"; "create"; "--name"; volume dk];
  match err with
  | Some e => ret (Some ("failed to create docker volume: " +:+ e))
  | None =>
  do err <- execDockerCommand ["volume"; "create"; "--name"; habVolume dk];
  match err with
  | Some e => ret (Some ("failed to create docker hab volume: " +:+ e))
  | None =>
  let mount := volume dk +:+ ":/opt/sd/" in
  let habMount := habVolume dk +:+ ":/hab" in
  let image := setupImage dk +:+ ":" +:+ setupImageVersion dk in
  do err <- execDockerCommand ["pull"; image];
  match err with
  | Some e => ret (Some ("failed to pull launcher image: " +:+ e))
  | None =>
  do err <- execDockerCommand
              ["container"; "run"; "--rm"; "-v"; mount; "-v"; habMount; image;
               "--entrypoint"; "/bin/echo set up bin"];
  match err with
  | Some e => ret (Some ("failed to prepare build scripts: " +:+ e))
  | None => ret None
  end end end end.

Definition runBuild (buildEntry : buildEntry) : Act (option error) :=
  do dk <- get_d;
  match Environment buildEntry with
  | [] => panic "index out of range [0] with length 0"
  | environment :: _ =>
  let srcDir := SrcPath buildEntry in
  let hostArtDir := ArtifactsPath buildEntry in
  let containerArtDir := env_get environment "SD_ARTIFACTS_DIR" in
  let buildImage := Image buildEntry in
  let logfilePath := filepath_Join [containerArtDir; LogFile] in
  let srcVol := srcDir +:+ "/:/sd/workspace/src/" +:+ scmHost +:+ "/" +:+ orgRepo in
  let artVol := hostArtDir +:+ "/:" +:+ containerArtDir in
  let binVol := volume dk +:+ ":" +:+ "/opt/sd" in
  let habVol := habVolume dk +:+ ":" +:+ "/opt/sd/hab" in
  match json_Marshal buildEntry with
  | inr err => ret (Some err)
  | inl configJSON =>
  do _ <- emit (EvLog InfoLevel ("Pulling docker image from " +:+ buildImage +:+ "..."));
  do err <- execDockerCommand ["pull"; buildImage];
  match err with
  | Some e => ret (Some ("failed to pull user image " +:+ e))
  | None =>
  let dockerCommandArgs := ["container"; "run"] in
  let dockerCommandOptions :=
    ["--rm"; "-v"; srcVol; "-v"; artVol; "-v"; binVol; "-v"; habVol;
     buildImage; "/opt/sd/local_run.sh"; configJSON; JobName buildEntry;
     env_get environment "SD_API_URL"; env_get environment "SD_STORE_URL";
     logfilePath] in
  let dockerCommandOptions :=
    if decide (MemoryLimit buildEntry = "") then dockerCommandOptions
    else ["-m" +:+ MemoryLimit buildEntry] ++ dockerCommandOptions in
  let dockerCommandOptions :=
    if UsePrivileged buildEntry then ["--privileged"] ++ dockerCommandOptions
    else dockerCommandOptions in
  do err <- execDockerCommand (dockerCommandArgs ++ dockerCommandOptions);
  match err with
  | Some e => ret (Some ("failed to run build container: " +:+ e))
  | None => ret None
  end end end end.

Definition signum (sig : Signal) : Z :=
  let numSig := 65 in
  match sig with
  | SyscallSignal i => if (i <? 0) || (i >=? numSig) then -1 else i
  | _ => -1
  end.

(** The body of the loop of [kill] for the command [v]; the result tells
    whether [v] was appended to [killedCmds]. On the [continue] of an exited
    command the mutex stays locked. *)
Definition kill_body (sig : Signal) (v : CmdPtr) : Act bool :=
  do dk <- get_d;
  do _ <- Lock;
  do gone <- exited InKill v;
  if gone then ret false
  else
    do _ <- Unlock;
    do err <-
      (if useSudo dk then
         do pid <- Process_Pid v;
         do cmd <- execCommand (Some v)
                     ["sudo"; "kill"; "-" +:+ itoa (signum sig); itoa pid];
         Cmd_Run cmd
       else Process_Signal v sig);
    do _ <- emit (EvDelivered v err);
    match err with
    | Some e =>
        do _ <- emit (EvLog WarnLevel ("failed to stop process: " +:+ e));
        ret false
    | None => ret true
    end.

(** The loop of [kill] over the commands still to visit, with the
    [killedCmds] collected so far. *)
Fixpoint kill_loop (sig : Signal) (cmds killedCmds : list CmdPtr)
    : Act (list CmdPtr) :=
  match cmds with
  | [] => ret killedCmds
  | v :: rest =>
      do appended <- kill_body sig v;
      kill_loop sig rest (if appended then killedCmds ++ [v] else killedCmds)
  end.

Definition retryMax : Z := 9.

(** The inner loop of [waitForProcess]: one look at every command. *)
Fixpoint poll (cmds : list CmdPtr) (finish : bool) : Act bool :=
  match cmds with
  | [] => ret finish
  | v :: rest =>
      do _ <- Lock;
      do gone <- exited InWait v;
      let finish := if gone then finish else false in
      do _ <- Unlock;
      poll rest finish
  end.

(** The [for { select { case <-t.C: ... } }] of [waitForProcess]; every turn
    of the loop takes one unit of fuel. *)
Fixpoint wait_loop (fuel : nat) (cmds : list CmdPtr) (retryCnt : Z)
    : Act (option error) :=
  match fuel with
  | O => fun w => OutOfFuel w
  | S fuel =>
      do _ <- emit EvTick;
      let retryCnt := retryCnt + 1 in
      do finish <- poll cmds true;
      if finish then ret None
      else if retryCnt >? retryMax then
        ret (Some ("waited " +:+ itoa (retryMax + 1) +:+
                   " seconds and could not confirm that the process was dead"))
      else wait_loop fuel cmds retryCnt
  end.

Definition waitForProcess (fuel : nat) (cmds : list CmdPtr) : Act (option error) :=
  do _ <- emit (EvWait cmds);
  wait_loop fuel cmds 0.

Definition kill (fuel : nat) (sig : Signal) : Act unit :=
  do dk <- get_d;
  do killedCmds <- kill_loop sig (commands dk) [];
  do err <- waitForProcess fuel killedCmds;
  match err with
  | Some e => emit (EvLog WarnLevel e)
  | None => ret tt
  end.

Definition clean : Act unit :=
  do dk <- get_d;
  do err <- execDockerCommand ["volume"; "rm"; "--force"; volume dk];
  do _ <- match err with
          | Some e => emit (EvLog WarnLevel ("failed to remove volume: " +:+ e))
          | None => ret tt
          end;
  do err <- execDockerCommand ["volume"; "rm"; "--force"; habVolume dk];
  match err with
  | Some e => emit (EvLog WarnLevel ("failed to remove hab volume: " +:+ e))
  | None => ret tt
  end.

(** ** The launcher *)

(** The interface [runner], over the state [S] an implementation works on.
    The fuel of [kill] bounds the turns of its waiting loop. *)
Record runner (S : Type) := {
  r_runBuild : buildEntry -> M S (option error);
  r_setupBin : M S (option error);
  r_kill : nat -> Signal -> M S unit;
  r_clean : M S unit;
}.
Global Arguments r_runBuild {S}.
Global Arguments r_setupBin {S}.
Global Arguments r_kill {S}.
Global Arguments r_clean {S}.

(** [var _ runner = ( *docker)(nil)]. *)
Definition docker_runner : runner World :=
  {| r_runBuild := runBuild; r_setupBin := setupBin;
     r_kill := kill; r_clean := clean |}.

Record launch (S : Type) := {
  l_buildEntry : buildEntry;
  l_runner : runner S;
}.
Global Arguments l_buildEntry {S}.
Global Arguments l_runner {S}.

(** [New]: the launcher and the world its runner starts in; the trace
    starts with the warnings of [createBuildEntry]. *)
Definition New (option : Option) : launch World * World :=
  let dk := newDocker (Launcher_Image (OptEntry option))
              (Launcher_Version (OptEntry option))
              (OptUseSudo option) (FlagVerbose option) in
  let '(be, warnings) := createBuildEntry option in
  ({| l_buildEntry := be; l_runner := docker_runner |},
   {| d := dk; heap := []; trace := warnings |}).

Definition Run {S} (l : launch S) : M S (option error) :=
  match lookPath env "docker" with
  | inr err => ret (Some ("`docker` command is not found in $PATH: " +:+ err))
  | inl _ =>
  do err <- r_setupBin (l_runner l);
  match err with
  | Some e => ret (Some ("failed to setup build: " +:+ e))
  | None =>
  do err <- r_runBuild (l_runner l) (l_buildEntry l);
  match err with
  | Some e => ret (Some ("failed to run build: " +:+ e))
  | None => ret None
  end end end.

Definition Kill {S} (l : launch S) (fuel : nat) (sig : Signal) : M S unit :=
  r_kill (l_runner l) fuel sig.

Definition Clean {S} (l : launch S) : M S unit :=
  r_clean (l_runner l).

End Launch.

(** ** A reference standard library

    An executable instance of [GoLib], used to run the package on concrete
    inputs. It follows the Go sources on the inputs it covers: URLs and paths
    written with letters, digits and the characters [. - _ : /] (no user
    information, query, fragment or percent-escape, on which escaping is the
    identity), and JSON strings that need no escaping. [Any] and [Step] are
    instantiated with the JSON text of the value. *)
Module GoRef.

Definition quote : string := String (ascii_of_nat 34) EmptyString.

Definition code (c : ascii) : nat := nat_of_ascii c.

Definition is_letter (c : ascii) : bool :=
  ((97 <=? code c) && (code c <=? 122) || (65 <=? code c) && (code c <=? 90))%nat.

Definition is_digit (c : ascii) : bool :=
  ((48 <=? code c) && (code c <=? 57))%nat.

Definition covered_char (c : ascii) : bool :=
  is_letter c || is_digit c ||
  bool_decide (c ∈ ["."; "-"; "_"; ":"; "/"]%char).

Fixpoint all_chars (p : ascii -> bool) (s : string) : bool :=
  match s with
  | EmptyString => true
  | String c s => p c && all_chars p s
  end.

Fixpoint has_char (a : ascii) (s : string) : bool :=
  match s with
  | EmptyString => false
  | String c s => bool_decide (c = a) || has_char a s
  end.

Definition to_lower (c : ascii) : ascii :=
  if ((65 <=? code c) && (code c <=? 90))%nat then ascii_of_nat (code c + 32) else c.

Fixpoint strings_ToLower (s : string) : string :=
  match s with
  | EmptyString => EmptyString
  | String c s => String (to_lower c) (strings_ToLower s)
  end.

(** [s[:i]] and [s[i:]] for [i] the first index of [sep], or [s] and the
    empty string. *)
Fixpoint break_at (sep : ascii) (s : string) : string * string :=
  match s with
  | EmptyString => (EmptyString, EmptyString)
  | String c s' =>
      if bool_decide (c = sep) then (EmptyString, s)
      else let '(before, after) := break_at sep s' in (String c before, after)
  end.

(** [s[i:]] for [i] the last index of [sep]. *)
Fixpoint from_last (sep : ascii) (s : string) : option string :=
  match s with
  | EmptyString => None
  | String c s' =>
      match from_last sep s' with
      | Some suffix => Some suffix
      | None => if bool_decide (c = sep) then Some s else None
      end
  end.

(** [strings.Split(s, sep)] for a one-byte separator. *)
Fixpoint split (sep : ascii) (s : string) : list string :=
  match s with
  | EmptyString => [EmptyString]
  | String c s' =>
      if bool_decide (c = sep) then EmptyString :: split sep s'
      else match split sep s' with
           | first :: others => String c first :: others
           | [] => [String c EmptyString]
           end
  end.

Definition has_prefix (pre s : string) : bool :=
  bool_decide (String.substring 0 (String.length pre) s = pre).

(** One element of the path in [path.Clean], on the stack of the elements
    kept so far (the last one first). *)
Definition clean_step (rooted : bool) (stack : list string) (seg : string)
    : list string :=
  if bool_decide (seg = "" ∨ seg = ".") then stack
  else if bool_decide (seg = "..") then
    match stack with
    | top :: below => if bool_decide (top = "..") then seg :: stack else below
    | [] => if rooted then [] else [seg]
    end
  else seg :: stack.

Definition path_Clean (p : string) : string :=
  if bool_decide (p = "") then "."
  else
    let rooted := has_prefix "/" p in
    let body := strings_Join (reverse (foldl (clean_step rooted) [] (split "/" p))) "/" in
    if rooted then "/" +:+ body
    else if bool_decide (body = "") then "." else body.

(** [path.Join], and [filepath.Join] where the separator is the slash. *)
Definition Join (elem : list string) : string :=
  match filter (fun e => e ≠ "") elem with
  | [] => ""
  | parts => path_Clean (strings_Join parts "/")
  end.

(** [getScheme] of net/url. *)
Inductive SchemeResult :=
| NoScheme
| HasScheme (scheme rest : string)
| MissingScheme.

Fixpoint getScheme (first : bool) (s : string) : SchemeResult :=
  match s with
  | EmptyString => NoScheme
  | String c s' =>
      let more :=
        match getScheme false s' with
        | HasScheme scheme rest => HasScheme (String c scheme) rest
        | r => r
        end in
      if is_letter c then more
      else if is_digit c || bool_decide (c ∈ ["+"; "-"; "."]%char) then
        if first then NoScheme else more
      else if bool_decide (c = ":"%char) then
        if first then MissingScheme else HasScheme EmptyString s'
      else NoScheme
  end.

Definition parse_error (rawURL msg : string) : error :=
  "parse " +:+ quote +:+ rawURL +:+ quote +:+ ": " +:+ msg.

(** [validOptionalPort]. *)
Definition validOptionalPort (port : string) : bool :=
  match port with
  | EmptyString => true
  | String c digits => bool_decide (c = ":"%char) && all_chars is_digit digits
  end.

Definition blank_URL : URL :=
  {| Scheme := ""; Opaque := ""; User := None; Host := ""; Path := "";
     RawPath := ""; OmitHost := false; ForceQuery := false; RawQuery := "";
     Fragment := ""; RawFragment := "" |}.

(** [url.Parse] on the covered inputs; any other input is refused. *)
Definition url_Parse (rawURL : string) : URL + error :=
  if negb (all_chars covered_char rawURL) then
    inr (parse_error rawURL "not a covered input")
  else
    match getScheme true rawURL with
    | MissingScheme => inr (parse_error rawURL "missing protocol scheme")
    | r =>
        let '(scheme, rest) :=
          match r with
          | HasScheme scheme rest => (strings_ToLower scheme, rest)
          | _ => (EmptyString, rawURL)
          end in
        let has_scheme := negb (bool_decide (scheme = "")) in
        let url scheme opaque host path omit :=
          {| Scheme := scheme; Opaque := opaque; User := None; Host := host;
             Path := path; RawPath := ""; OmitHost := omit;
             ForceQuery := false; RawQuery := ""; Fragment := "";
             RawFragment := "" |} in
        if negb (has_prefix "/" rest) && has_scheme then
          inl (url scheme rest "" "" false)
        else if negb (has_prefix "/" rest) && has_char ":" (fst (break_at "/" rest)) then
          inr (parse_error rawURL "first path segment in URL cannot contain colon")
        else if (has_scheme || negb (has_prefix "///" rest)) && has_prefix "//" rest then
          let '(authority, path) := break_at "/" (String.substring 2 (String.length rest) rest) in
          match from_last ":" authority with
          | Some port =>
              if validOptionalPort port then inl (url scheme "" authority path false)
              else inr (parse_error rawURL
                          ("invalid port " +:+ quote +:+ port +:+ quote +:+ " after host"))
          | None => inl (url scheme "" authority path false)
          end
        else inl (url scheme "" "" rest (has_scheme && has_prefix "/" rest))
    end.

(** [URL.String], with escaping the identity. *)
Definition URL_String (u : URL) : string :=
  let nonempty (x : string) := negb (bool_decide (x = "")) in
  let is_some {A} (o : option A) := match o with Some _ => true | None => false end in
  let scheme := if nonempty (Scheme u) then Scheme u +:+ ":" else "" in
  let body :=
    if nonempty (Opaque u) then Opaque u
    else
      let authority :=
        if nonempty (Scheme u) || nonempty (Host u) || is_some (User u) then
          if OmitHost u && negb (nonempty (Host u)) && negb (is_some (User u)) then ""
          else
            (if nonempty (Host u) || nonempty (Path u) || is_some (User u)
             then "//" else "") +:+
            match User u with
            | Some (name, Some password) => name +:+ ":" +:+ password +:+ "@"
            | Some (name, None) => name +:+ "@"
            | None => ""
            end +:+ Host u
        else "" in
      let path := Path u in
      let slash :=
        if nonempty path && negb (has_prefix "/" path) && nonempty (Host u)
        then "/" else "" in
      let dot :=
        if bool_decide (scheme +:+ authority +:+ slash = "") &&
           has_char ":" (fst (break_at "/" path))
        then "./" else "" in
      authority +:+ slash +:+ dot +:+ path in
  scheme +:+ body +:+
  (if ForceQuery u || nonempty (RawQuery u) then "?" +:+ RawQuery u else "") +:+
  (if nonempty (Fragment u) then "#" +:+ Fragment u else "").

(** [json.Marshal] of a [buildEntry]: the fields with a json name, the keys
    of a map in increasing order. *)
Definition json_string (s : string) : string := quote +:+ s +:+ quote.

Definition key_le {A} (x y : string * A) : Prop := String.leb (fst x) (fst y) = true.

#[local] Instance key_le_dec {A} (x y : string * A) : Decision (key_le x y).
Proof. unfold key_le. apply _. Defined.

Definition json_map {A} (render : A -> string) (m : gmap string A) : string :=
  "{" +:+
  strings_Join
    (map (fun kv => json_string (fst kv) +:+ ":" +:+ render (snd kv))
         (merge_sort key_le (map_to_list m))) "," +:+
  "}".

Definition json_list {A} (render : A -> string) (l : list A) : string :=
  "[" +:+ strings_Join (map render l) "," +:+ "]".

Definition json_Marshal (b : @buildEntry string string) : string + error :=
  inl ("{" +:+
       strings_Join
         [json_string "id" +:+ ":" +:+ itoa (ID b);
          json_string "environment" +:+ ":" +:+ json_list (json_map json_string) (Environment b);
          json_string "eventId" +:+ ":" +:+ itoa (EventID b);
          json_string "jobId" +:+ ":" +:+ itoa (JobID b);
          json_string "parentBuildId" +:+ ":" +:+ json_list itoa (ParentBuildID b);
          json_string "sha" +:+ ":" +:+ json_string (Sha b);
          json_string "meta" +:+ ":" +:+ json_map id (Meta' b);
          json_string "steps" +:+ ":" +:+ json_list id (Steps b)] "," +:+
       "}").

Definition lib : @GoLib string string :=
  @Build_GoLib string string url_Parse URL_String Join Join json_Marshal.

End GoRef.

(** ** Reading the result of the assembler *)

Section AssemblerSpec.
Context {Any Step : Type} `{L : @GoLib Any Step}.
Implicit Types option : @Option Any Step.

(** The default layer of the environment of [createBuildEntry option]. *)
Definition default_layer option : EnvVar :=
  defaultEnv option
    (versionedURL (APIURL (OptEntry option)) apiVersion
       "SD_API_URL is invalid. It may cause errors").1
    (versionedURL (StoreURL (OptEntry option)) storeVersion
       "SD_STORE_URL is invalid. It may cause errors").1.

(** The value of a key by precedence: override, then job, then default. *)
Definition by_precedence (override job default : EnvVar) (k : string)
    : option string :=
  match override !! k with
  | Some v => Some v
  | None =>
      match job !! k with
      | Some v => Some v
      | None => default !! k
      end
  end.

(** The job-declared or the caller-override layer defines [k]. *)
Definition overridden option (k : string) : bool :=
  bool_decide (is_Some (Job_Environment (OptJob option) !! k)) ||
  bool_decide (is_Some (OptionEnv option !! k)).

(** The configured URL with the version appended to its path, or the
    configured string itself when it does not parse. *)
Definition with_version (raw version : string) : string :=
  match url_Parse raw with
  | inl a => URL_String (set_Path a (path_Join [Path a; version]))
  | inr _ => raw
  end.

Definition parses (raw : string) : bool :=
  match url_Parse raw with inl _ => true | inr _ => false end.

(** What the environment and the log of [createBuildEntry option] are said
    to hold about the two URLs. *)
Definition versioned_in_env option : Prop :=
  ∃ env,
    Environment (createBuildEntry option).1 = [env] ∧
    env !! "SD_API_URL" = Some (with_version (APIURL (OptEntry option)) "v4") ∧
    env !! "SD_STORE_URL" = Some (with_version (StoreURL (OptEntry option)) "v1") ∧
    (createBuildEntry option).2 =
      (if parses (APIURL (OptEntry option)) then []
       else [EvLog WarnLevel "SD_API_URL is invalid. It may cause errors"]) ++
      (if parses (StoreURL (OptEntry option)) then []
       else [EvLog WarnLevel "SD_STORE_URL is invalid. It may cause errors"]).

End AssemblerSpec.

(** ** Concrete inputs *)

Module Sample.

Definition job : @Job string :=
  {| Job_Steps := []; Job_Environment := ∅; Job_Image := "node:12" |}.

Definition entry : Entry :=
  {| APIURL := "http://api.example.com";
     StoreURL := "http://store.example.com";
     Launcher_Image := "screwdrivercd/launcher";
     Launcher_Version := "stable" |}.

(** The option of the scenario: no job or override environment. *)
Definition options : @Option string string :=
  {| OptJob := job; OptEntry := entry; OptJobName := "main"; JWT := "jwt";
     OptArtifactsPath := "/tmp/artifacts"; Memory := "512m";
     OptSrcPath := "/home/dev/src"; OptionEnv := ∅; OptMeta := ∅;
     OptUseSudo := false; OptUsePrivileged := true; FlagVerbose := false |}.

(** The same with a caller override of [SD_API_URL]. *)
Definition options_override : @Option string string :=
  {| OptJob := job; OptEntry := entry; OptJobName := "main"; JWT := "jwt";
     OptArtifactsPath := "/tmp/artifacts"; Memory := "512m";
     OptSrcPath := "/home/dev/src";
     OptionEnv := {["SD_API_URL" := "http://localhost:9001"]}; OptMeta := ∅;
     OptUseSudo := false; OptUsePrivileged := true; FlagVerbose := false |}.

(** The same with a store URL that has no scheme before its colon. *)
Definition options_bad_store : @Option string string :=
  {| OptJob := job;
     OptEntry := {| APIURL := "http://api.example.com";
                    StoreURL := "://store.example.com";
                    Launcher_Image := "screwdrivercd/launcher";
                    Launcher_Version := "stable" |};
     OptJobName := "main"; JWT := "jwt";
     OptArtifactsPath := "/tmp/artifacts"; Memory := "512m";
     OptSrcPath := "/home/dev/src"; OptionEnv := ∅; OptMeta := ∅;
     OptUseSudo := false; OptUsePrivileged := true; FlagVerbose := false |}.

(** An operating system where every command starts and succeeds, every
    signal is delivered, and no process is seen to exit while [kill] runs. *)
Definition os : Env :=
  {| lookPath := fun file => inl ("/usr/bin/" +:+ file);
     runs := fun c _ => Finishes (1000 + Z.of_nat c) "exit status 0" None "";
     signals := fun _ _ _ => None;
     exitedBy := fun _ _ => false |}.

(** The same without [docker] in the path. *)
Definition os_without_docker : Env :=
  {| lookPath := fun file =>
       inr ("exec: " +:+ GoRef.quote +:+ file +:+ GoRef.quote +:+
            ": executable file not found in $PATH");
     runs := runs os; signals := signals os; exitedBy := exitedBy os |}.

(** A command that has been started as process [pid]; [state] is its
    [ProcessState]. *)
Definition started (argv : list string) (pid : Z) (state : option string) : Cmd :=
  {| Args := argv; Stdout := None; Stderr := Some BufferWriter;
     Process := Some pid; ProcessState := state; StderrBuf := "" |}.

(** The world of a runner whose registry holds the commands [cmds], in the
    order in which they were made. *)
Definition world_of (sudo : bool) (cmds : list Cmd) : World :=
  {| d := {| volume := "SD_LAUNCH_BIN"; habVolume := "SD_LAUNCH_HAB";
             setupImage := "screwdrivercd/launcher";
             setupImageVersion := "stable"; useSudo := sudo;
             commands := seq 0 (length cmds); mutex := false;
             flagVerbose := false |};
     heap := cmds; trace := [] |}.

Definition volume_created : Cmd :=
  started ["docker"; "volume"; "create"; "--name"; "SD_LAUNCH_BIN"] 1000
    (Some "exit status 0").

Definition build_running : Cmd :=
  started ["docker"; "container"; "run"; "--rm"; "node:12"] 4242 None.

Definition SIGTERM : Signal := SyscallSignal 15.

(** The volume has been created and the build container is running. *)
Definition world_created_running : World :=
  world_of false [volume_created; build_running].

(** The volume has been created and nothing else has been made. *)
Definition world_created : World := world_of false [volume_created].

(** Only the build container, running. *)
Definition world_running : World := world_of false [build_running].

(** Only the build container, run and signalled through sudo. *)
Definition world_sudo_running : World := world_of true [build_running].

(** An operating system where every process is seen exited from the
    twentieth event of the trace on. *)
Definition os_exiting : Env :=
  {| lookPath := lookPath os; runs := runs os; signals := signals os;
     exitedBy := fun t _ => bool_decide (20 <= t)%nat |}.

(** An operating system that refuses every signal. *)
Definition os_refusing : Env :=
  {| lookPath := lookPath os; runs := runs os;
     signals := fun _ _ _ => Some "os: process already finished";
     exitedBy := exitedBy os |}.

(** The launcher of the scenario and the world it starts in. *)
Definition launcher : launch World := (New (H := GoRef.lib) os options).1.
Definition world0 : World := (New (H := GoRef.lib) os options).2.

End Sample.

(** ** Reading the runs of the runner *)

(** The events a call adds to the trace. *)
Definition new_events {A} (m : M World A) (w : World) : list Event :=
  drop (length (trace w)) (trace (final (m w))).

(** The argv of a docker command: [execDockerCommand] puts [docker] before
    the arguments and [sudo] before that when asked to. *)
Definition docker_argv (dk : docker) (args : list string) : list string :=
  (if useSudo dk then ["sudo"] else []) ++ "docker" :: args.

(** The error [c.Run()] returns. *)
Definition run_error (r : RunResult) : option error :=
  match r with
  | StartFails err => Some err
  | Finishes _ _ err _ => err
  end.

(** The command [execDockerCommand] leaves in the heap. *)
Definition docker_command (dk : docker) (args : list string) (r : RunResult) : Cmd :=
  {| Args := docker_argv dk args;
     Stdout := if flagVerbose dk then Some (LogWriter InfoLevel) else None;
     Stderr := Some BufferWriter;
     Process := match r with Finishes pid _ _ _ => Some pid | StartFails _ => None end;
     ProcessState := match r with Finishes _ state _ _ => Some state | StartFails _ => None end;
     StderrBuf := match r with Finishes _ _ _ out => out | StartFails _ => "" end |}.

(** The events of one [execDockerCommand] that makes the command [c]. *)
Definition docker_command_events (dk : docker) (c : CmdPtr) (args : list string)
    (r : RunResult) : list Event :=
  [EvCommand c (docker_argv dk args)] ++
  (if flagVerbose dk
   then [EvLog InfoLevel ("$ " +:+ strings_Join (docker_argv dk args) " ")]
   else []) ++
  [EvAppend c; EvRun c (run_error r)] ++
  match run_error r with
  | Some _ => [EvStderr (StderrBuf (docker_command dk args r))]
  | None => []
  end.

(** The [docker] object with one more command in its registry. *)
Definition with_command (dk : docker) (c : CmdPtr) : docker :=
  {| volume := volume dk; habVolume := habVolume dk;
     setupImage := setupImage dk; setupImageVersion := setupImageVersion dk;
     useSudo := useSudo dk; commands := commands dk ++ [c];
     mutex := mutex dk; flagVerbose := flagVerbose dk |}.

(** The warning of [kill] for a signal that could not be sent. *)
Definition warn_failed (err : option error) : list Event :=
  match err with
  | Some e => [EvLog WarnLevel ("failed to stop process: " +:+ e)]
  | None => []
  end.

Definition is_nil (err : option error) : bool :=
  match err with None => true | Some _ => false end.

(** The argv of the elevated kill. *)
Definition sudo_kill_argv (sig : Signal) (pid : Z) : list string :=
  ["sudo"; "kill"; "-" +:+ itoa (signum sig); itoa pid].

(** The events of one turn of the loop of [kill], for the command [v] in the
    heap [hp], and whether the turn appends [v] to [killedCmds]. *)
Inductive visit_events (sudo : bool) (sig : Signal) (hp : list Cmd) (v : CmdPtr)
    : list Event -> bool -> Prop :=
| visit_blocked :
    (* parked in Lock *)
    visit_events sudo sig hp v [] false
| visit_dangling :
    (* v is not a command of the heap *)
    visit_events sudo sig hp v [EvLock] false
| visit_exited :
    (* continue, the mutex still locked *)
    visit_events sudo sig hp v [EvLock; EvProcessState InKill v true] false
| visit_not_started cmd :
    (* v.Process is nil *)
    hp !! v = Some cmd ->
    Process cmd = None ->
    visit_events sudo sig hp v
      [EvLock; EvProcessState InKill v false; EvUnlock] false
| visit_signal err :
    sudo = false ->
    visit_events sudo sig hp v
      ([EvLock; EvProcessState InKill v false; EvUnlock;
        EvSignal v sig err; EvDelivered v err] ++ warn_failed err)
      (is_nil err)
| visit_sudo_kill cmd pid c err :
    sudo = true ->
    hp !! v = Some cmd ->
    Process cmd = Some pid ->
    visit_events sudo sig hp v
      ([EvLock; EvProcessState InKill v false; EvUnlock;
        EvKill v c (sudo_kill_argv sig pid); EvRun c err;
        EvDelivered v err] ++ warn_failed err)
      (is_nil err).

(** The events of the loop of [kill] over [cmds], turn after turn, and the
    commands it appends to [killedCmds]; the loop may stop at any turn, and
    the heap grows by the kill commands made on the way. *)
Inductive loop_events (sudo : bool) (sig : Signal) (hp : list Cmd)
    : list CmdPtr -> list Event -> list CmdPtr -> Prop :=
| loop_stop cmds : loop_events sudo sig hp cmds [] []
| loop_turn v rest seg appended made more killed :
    visit_events sudo sig hp v seg appended ->
    loop_events sudo sig (hp ++ made) rest more killed ->
    loop_events sudo sig hp (v :: rest) (seg ++ more)
      ((if appended then [v] else []) ++ killed).

(** The events of [waitForProcess] after its entry, and the warning of
    [kill] for its error. *)
Definition after_wait (e : Event) : Prop :=
  match e with
  | EvTick | EvLock | EvUnlock | EvProcessState InWait _ _ | EvLog _ _ => True
  | _ => False
  end.

(** The event sends a signal to [v], directly or through the elevated
    kill. *)
Definition attempt_on (v : CmdPtr) (e : Event) : Prop :=
  match e with
  | EvSignal u _ _ | EvKill u _ _ => u = v
  | _ => False
  end.

#[global] Instance attempt_on_dec v e : Decision (attempt_on v e).
Proof. destruct e; simpl; apply _. Defined.

(** The event belongs to the turn of the loop of [kill] for [v]. *)
Definition turn_of (v : CmdPtr) (e : Event) : Prop :=
  match e with
  | EvProcessState InKill u _ | EvSignal u _ _ | EvKill u _ _
  | EvDelivered u _ => u = v
  | _ => False
  end.

(** The registry holds distinct commands of the heap. *)
Definition registry_ok (w : World) : Prop :=
  NoDup (commands (d w)) ∧ Forall (fun v => (v < length (heap w))%nat) (commands (d w)).

(** The signal has no number for [signum]: it is not a [syscall.Signal], or
    its number is out of range. *)
Definition unmappable (sig : Signal) : Prop :=
  match sig with
  | SyscallSignal n => n < 0 ∨ 65 <= n
  | OtherSignal _ => True
  end.

(** Every append to the registry in the trace [t] happens with the mutex
    held, [held] telling whether it is held at the start of [t]. *)
Fixpoint appends_locked (held : bool) (t : list Event) : bool :=
  match t with
  | [] => true
  | EvLock :: t => appends_locked true t
  | EvUnlock :: t => appends_locked false t
  | EvAppend _ :: t => held && appends_locked held t
  | _ :: t => appends_locked held t
  end.

#[global] Instance Signal_eq_dec : EqDecision Signal.
Proof. solve_decision. Defined.
#[global] Instance Level_eq_dec : EqDecision Level.
Proof. solve_decision. Defined.
#[global] Instance Site_eq_dec : EqDecision Site.
Proof. solve_decision. Defined.
#[global] Instance Event_eq_dec : EqDecision Event.
Proof. solve_decision. Defined.

(** The numbers of [Lock] and of [Unlock] in a trace. *)
Definition locks (t : list Event) : nat :=
  length (filter (fun e => e = EvLock) t).
Definition unlocks (t : list Event) : nat :=
  length (filter (fun e => e = EvUnlock) t).

(** What C9 says of a call of [kill] with a signal that has no number: for
    every command of the registry, no elevated kill is made, the command is
    not waited for, and a warning is logged. *)
Definition unmappable_skipped (new : list Event) (registry : list CmdPtr) : Prop :=
  ∀ v, In v registry →
    (∀ c argv, ¬ In (EvKill v c argv) new) ∧
    (∀ cmds, In (EvWait cmds) new → ¬ In v cmds) ∧
    (∃ msg, In (EvLog WarnLevel msg) new).

Section RunnerSpec.
Context {Any Step : Type} `{L : @GoLib Any Step}.
Implicit Types be : @buildEntry Any Step.

(** The arguments of the container run as the specification lists them:
    [container run], the privileged flag if asked for, the memory-limit flag
    if a limit is given, then the standard arguments in their order. *)
Definition spec_run_arguments (dk : docker) be (environment : EnvVar)
    (configJSON : string) : list string :=
  ["container"; "run"] ++
  (if UsePrivileged be then ["--privileged"] else []) ++
  (if bool_decide (MemoryLimit be = "") then [] else ["-m" +:+ MemoryLimit be]) ++
  ["--rm";
   "-v"; SrcPath be +:+ "/:/sd/workspace/src/screwdriver.cd/sd-local/local-build";
   "-v"; ArtifactsPath be +:+ "/:" +:+ env_get environment "SD_ARTIFACTS_DIR";
   "-v"; volume dk +:+ ":/opt/sd";
   "-v"; habVolume dk +:+ ":/opt/sd/hab";
   Image be;
   "/opt/sd/local_run.sh";
   configJSON;
   JobName be;
   env_get environment "SD_API_URL";
   env_get environment "SD_STORE_URL";
   filepath_Join [env_get environment "SD_ARTIFACTS_DIR"; "builds.log"]].

End RunnerSpec.

(** The number of ticks in a trace. *)
Definition ticks (t : list Event) : nat :=
  length (filter (fun e => e = EvTick) t).

(** A command of the heap that has been started. *)
Definition is_started (hp : list Cmd) (v : CmdPtr) : Prop :=
  ∃ cmd pid, hp !! v = Some cmd ∧ Process cmd = Some pid.

(** A property of the world that a call keeps, however the call ends. *)
Definition preserves {A} (P : World → Prop) (m : M World A) : Prop :=
  ∀ w, P w → P (final (m w)).

(** The property is kept by the steps of the methods that change the world,
    the append to the registry apart. *)
Record closed_under_steps (P : World → Prop) : Prop := {
  step_emit e : preserves P (emit e);
  step_set_mutex b : preserves P (set_mutex b);
  step_store c cmd : preserves P (store c cmd);
  step_execCommand target argv : preserves P (execCommand target argv);
}.
Global Arguments step_emit {P}.
Global Arguments step_set_mutex {P}.
Global Arguments step_store {P}.
Global Arguments step_execCommand {P}.

(** ** Reading the runs of the launcher *)

(** The four commands of [setupBin], each with the message that wraps its
    error. *)
Definition setupBin_steps (dk : docker) : list (list string * string) :=
  [ (["volume"; "create"; "--name"; volume dk],
     "failed to create docker volume: ");
    (["volume"; "create"; "--name"; habVolume dk],
     "failed to create docker hab volume: ");
    (["pull"; setupImage dk +:+ ":" +:+ setupImageVersion dk],
     "failed to pull launcher image: ");
    (["container"; "run"; "--rm"; "-v"; volume dk +:+ ":/opt/sd/";
      "-v"; habVolume dk +:+ ":/hab";
      setupImage dk +:+ ":" +:+ setupImageVersion dk;
      "--entrypoint"; "/bin/echo set up bin"],
     "failed to prepare build scripts: ") ].

(** The error of the [i]-th command of [steps], the commands being made
    from the heap size [c] on. *)
Definition step_error (env : Env) (dk : docker) (c : nat)
    (steps : list (list string * string)) (i : nat) : option error :=
  match steps !! i with
  | Some (args, _) => run_error (runs env (c + i)%nat (docker_argv dk args))
  | None => None
  end.

(** A command of the heap whose exit has been recorded. *)
Definition is_exited (hp : list Cmd) (v : CmdPtr) : Prop :=
  ∃ cmd state, hp !! v = Some cmd ∧ ProcessState cmd = Some state.

(** A command of the heap that is never seen to exit. *)
Definition never_exits (env : Env) (hp : list Cmd) (v : CmdPtr) : Prop :=
  ∃ cmd, hp !! v = Some cmd ∧ ProcessState cmd = None ∧
         ∀ t, exitedBy env t v = false.

(** The error of [waitForProcess] after its last retry. *)
Definition timeout_error : error :=
  "waited 10 seconds and could not confirm that the process was dead".

(** What an event of [kill] may be, with and without sudo: a signal is sent
    by [Process.Signal] without sudo and by a command that is run with it,
    and no event makes a docker command or appends to the registry. *)
Definition kill_event (sudo : bool) (e : Event) : Prop :=
  match e with
  | EvSignal _ _ _ => sudo = false
  | EvKill _ _ _ | EvRun _ _ => sudo = true
  | EvCommand _ _ | EvAppend _ | EvStderr _ => False
  | _ => True
  end.

(** ** Operating systems that fail *)

Module Fault.

(** The command made third exits with status 1; in a new launcher it is the
    pull of the launcher image. *)
Definition os_pull_denied : Env :=
  {| lookPath := lookPath Sample.os;
     runs := fun c argv =>
       if (c =? 2)%nat
       then Finishes 1002 "exit status 1" (Some "exit status 1")
              "pull access denied"
       else runs Sample.os c argv;
     signals := signals Sample.os; exitedBy := exitedBy Sample.os |}.

(** The command made fifth exits with status 1; in a new launcher it is the
    pull of the build image. *)
Definition os_image_missing : Env :=
  {| lookPath := lookPath Sample.os;
     runs := fun c argv =>
       if (c =? 4)%nat
       then Finishes 1004 "exit status 1" (Some "exit status 1")
              "manifest unknown"
       else runs Sample.os c argv;
     signals := signals Sample.os; exitedBy := exitedBy Sample.os |}.

(** No command can be started. *)
Definition os_not_started : Env :=
  {| lookPath := lookPath Sample.os;
     runs := fun _ _ => StartFails "fork/exec /usr/bin/docker: permission denied";
     signals := signals Sample.os; exitedBy := exitedBy Sample.os |}.

(** The world of a runner that has made no command yet. *)
Definition world_new : World := Sample.world_of false [].

(** The same with the mutex held. *)
Definition world_locked : World :=
  {| d := {| volume := "SD_LAUNCH_BIN"; habVolume := "SD_LAUNCH_HAB";
             setupImage := "screwdrivercd/launcher";
             setupImageVersion := "stable"; useSudo := false;
             commands := [0%nat]; mutex := true; flagVerbose := false |};
     heap := [Sample.build_running]; trace := [] |}.

End Fault.

(** * Theorems *)

(** ** The assembler *)

Section AssemblerFacts.
Context {Any Step : Type} `{L : @GoLib Any Step}.
Implicit Types option : @Option Any Step.

Lemma copyInto_lookup (env src : EnvVar) (k : string) :
  copyInto env src !! k =
    match src !! k with Some v => Some v | None => env !! k end.
Proof.
  unfold copyInto.
  apply (map_fold_weak_ind
           (fun r m => r !! k = match m !! k with Some v => Some v | None => env !! k end)).
  - by rewrite lookup_empty.
  - intros i x m r Hi IH.
    destruct (decide (i = k)) as [->|Hne].
    + by rewrite !lookup_insert_eq.
    + by rewrite !lookup_insert_ne.
Qed.

Lemma mergeEnv_lookup (env jobEnv optionEnv : EnvVar) (k : string) :
  ∃ merged, mergeEnv env jobEnv optionEnv = [merged] ∧
            merged !! k = by_precedence optionEnv jobEnv env k.
Proof.
  eexists. split; [reflexivity|].
  unfold by_precedence. by rewrite !copyInto_lookup.
Qed.

(** C6. For every option and every key, the value of the key in the
    environment of the build entry is the caller-override value if that layer
    defines the key, else the job-declared value if that layer defines it,
    else the value of the default layer. *)
Theorem createBuildEntry_precedence option (k : string) :
  ∃ env,
    Environment (createBuildEntry option).1 = [env] ∧
    env !! k =
      by_precedence (OptionEnv option) (Job_Environment (OptJob option))
        (default_layer option) k.
Proof.
  exact (mergeEnv_lookup (default_layer option) _ _ k).
Qed.

Lemma versionedURL_fst (raw version warning : string) :
  (versionedURL raw version warning).1 = with_version raw version.
Proof. unfold versionedURL, with_version. by destruct (url_Parse raw). Qed.

Lemma versionedURL_snd (raw version warning : string) :
  (versionedURL raw version warning).2 =
    if parses raw then [] else [EvLog WarnLevel warning].
Proof. unfold versionedURL, parses. by destruct (url_Parse raw). Qed.

Lemma overridden_false option (k : string) :
  overridden option k = false →
  Job_Environment (OptJob option) !! k = None ∧ OptionEnv option !! k = None.
Proof.
  unfold overridden. intros Hk.
  apply orb_false_elim in Hk as [Hj Ho].
  apply bool_decide_eq_false in Hj, Ho.
  split; apply eq_None_not_Some; assumption.
Qed.

(** C7, as amended. [createBuildEntry] has no error result. When neither the
    job-declared nor the caller-override layer defines [SD_API_URL] and
    [SD_STORE_URL], the environment holds for each of them the configured URL
    with [v4] (API) or [v1] (store) joined to its path if that URL parses,
    and the configured string unchanged if it does not; a warning is logged
    for exactly the URLs that do not parse. *)
Theorem createBuildEntry_versioned_urls option :
  overridden option "SD_API_URL" = false →
  overridden option "SD_STORE_URL" = false →
  versioned_in_env option.
Proof.
  intros [Hja Hoa]%overridden_false [Hjs Hos]%overridden_false.
  unfold versioned_in_env, createBuildEntry, mergeEnv. cbn [fst snd Environment].
  eexists. split; [reflexivity|].
  rewrite !copyInto_lookup, Hja, Hoa, Hjs, Hos, !versionedURL_snd.
  unfold defaultEnv, apiVersion, storeVersion.
  rewrite lookup_insert_ne by done.
  rewrite !lookup_insert_eq, !versionedURL_fst.
  done.
Qed.

End AssemblerFacts.

(** The scenario of the two example URLs, on the reference library. *)
Lemma createBuildEntry_versioned_urls_witness :
  ∃ env,
    Environment (createBuildEntry (H := GoRef.lib) Sample.options).1 = [env] ∧
    env !! "SD_API_URL" = Some "http://api.example.com/v4" ∧
    env !! "SD_STORE_URL" = Some "http://store.example.com/v1" ∧
    (createBuildEntry (H := GoRef.lib) Sample.options).2 = [].
Proof.
  destruct (createBuildEntry_versioned_urls (L := GoRef.lib) Sample.options)
    as (env & He & Ha & Hs & Hw); [vm_compute; reflexivity ..|].
  exists env. split; [exact He|].
  split; [exact Ha|]. split; [exact Hs | exact Hw].
Defined.

(** A store URL that does not parse is kept as it is, with one warning. *)
Example createBuildEntry_bad_store :
  ∃ env,
    Environment (createBuildEntry (H := GoRef.lib) Sample.options_bad_store).1 = [env] ∧
    env !! "SD_STORE_URL" = Some "://store.example.com" ∧
    (createBuildEntry (H := GoRef.lib) Sample.options_bad_store).2 =
      [EvLog WarnLevel "SD_STORE_URL is invalid. It may cause errors"].
Proof. eexists. split; [reflexivity|]. split; vm_compute; reflexivity. Qed.

(** C7 as it is written fails where the caller overrides [SD_API_URL]: the
    configured URL parses, and the environment holds the override. *)
Lemma createBuildEntry_override_wins :
  ¬ versioned_in_env (L := GoRef.lib) Sample.options_override.
Proof.
  intros (env & He & Ha & _).
  vm_compute in He. injection He as <-.
  vm_compute in Ha. discriminate Ha.
Qed.

(** ** The docker runner *)

Lemma lookup_new {A} (l : list A) (x : A) : (l ++ [x]) !! length l = Some x.
Proof. by apply list_lookup_middle. Qed.

Lemma insert_new {A} (l : list A) (x y : A) :
  <[length l := y]> (l ++ [x]) = l ++ [y].
Proof. rewrite insert_app_r_alt by lia. by rewrite Nat.sub_diag. Qed.

(** Reads and writes of the command made last. *)
Ltac heap_steps :=
  repeat (first [rewrite lookup_new | rewrite insert_new];
          cbn [d heap trace Args Stdout Stderr Process ProcessState StderrBuf]).

(** Projections of the world and of the records in it. *)
Ltac wsimpl :=
  cbn [d heap trace mutex final volume habVolume setupImage setupImageVersion
       useSudo commands flagVerbose Args Stdout Stderr Process ProcessState
       StderrBuf app].

(** ** Turns of the loop of [kill] *)

(** Membership in the events of a turn, event by event. *)
Ltac in_cases H :=
  repeat match type of H with
         | In _ (_ ++ _) => apply in_app_iff in H as [H|H]
         | In _ (warn_failed ?err) => destruct err; cbn [warn_failed] in H
         | In _ (_ :: _) => destruct H as [H|H]
         | In _ [] => destruct H
         end.

Section Turns.
Context (sudo : bool) (sig : Signal).
Implicit Types hp : list Cmd.

Lemma attempt_turn v e : attempt_on v e → turn_of v e.
Proof. by destruct e. Qed.


Lemma visit_turn hp u seg b v e :
  visit_events sudo sig hp u seg b → In e seg → turn_of v e → u = v.
Proof.
  intros Hvis Hin Hturn.
  destruct Hvis; in_cases Hin; subst e; cbn in Hturn; done.
Qed.

Lemma loop_turn_in hp cmds new appended v e :
  loop_events sudo sig hp cmds new appended →
  In e new → turn_of v e → In v cmds.
Proof.
  induction 1 as [|hp u rest seg b made more killed Hvis Hloop IH]; intros Hin Hturn.
  { destruct Hin. }
  apply in_app_iff in Hin as [Hin|Hin].
  - left. by eapply visit_turn.
  - right. by apply IH.
Qed.

Lemma loop_appended_in hp cmds new appended v :
  loop_events sudo sig hp cmds new appended → In v appended → In v cmds.
Proof.
  induction 1 as [|hp u rest seg b made more killed Hvis Hloop IH]; intros Hin.
  { destruct Hin. }
  apply in_app_iff in Hin as [Hin|Hin].
  - destruct b; [|destruct Hin]. destruct Hin as [->|[]]. by left.
  - right. by apply IH.
Qed.

Lemma loop_no_wait hp cmds new appended l :
  loop_events sudo sig hp cmds new appended → ¬ In (EvWait l) new.
Proof.
  induction 1 as [|hp u rest seg b made more killed Hvis Hloop IH]; intros Hin.
  { destruct Hin. }
  apply in_app_iff in Hin as [Hin|Hin]; [|done].
  destruct Hvis; in_cases Hin; done.
Qed.

(** A turn that finds the command exited sends nothing. *)
Lemma visit_exited_quiet hp u seg b v e :
  visit_events sudo sig hp u seg b →
  In (EvProcessState InKill u true) seg → In e seg → ¬ attempt_on v e.
Proof.
  intros Hvis Hex Hin.
  destruct Hvis; in_cases Hex; try done; in_cases Hin; subst e; cbn; tauto.
Qed.

Lemma loop_exited_quiet hp cmds new appended v e :
  loop_events sudo sig hp cmds new appended →
  NoDup cmds →
  In (EvProcessState InKill v true) new → In e new → ¬ attempt_on v e.
Proof.
  induction 1 as [|hp u rest seg b made more killed Hvis Hloop IH];
    intros Hnd Hex Hin Hatt.
  { destruct Hin. }
  apply NoDup_cons in Hnd as [Hu Hnd]. rewrite list_elem_of_In in Hu.
  apply in_app_iff in Hex as [Hex|Hex]; apply in_app_iff in Hin as [Hin|Hin].
  - assert (u = v) as -> by (eapply visit_turn; [exact Hvis|exact Hex|done]).
    exact (visit_exited_quiet _ _ _ _ _ _ Hvis Hex Hin Hatt).
  - assert (u = v) as -> by (eapply visit_turn; [exact Hvis|exact Hex|done]).
    apply Hu. eapply loop_turn_in; [exact Hloop|exact Hin|by apply attempt_turn].
  - assert (u = v) as -> by (eapply visit_turn; [exact Hvis|exact Hin|by apply attempt_turn]).
    apply Hu. eapply loop_turn_in; [exact Hloop|exact Hex|done].
  - exact (IH Hnd Hex Hin Hatt).
Qed.

Lemma filter_none {A} (P : A → Prop) `{∀ x, Decision (P x)} (l : list A) :
  (∀ x, In x l → ¬ P x) → filter P l = [].
Proof.
  induction l as [|x l IH]; intros Hl; [done|].
  rewrite filter_cons_False by (apply Hl; by left).
  apply IH. intros y Hy. apply Hl. by right.
Qed.

Lemma visit_no_attempt hp u seg b v :
  visit_events sudo sig hp u seg b → u ≠ v → filter (attempt_on v) seg = [].
Proof.
  intros Hvis Hne. apply filter_none. intros e Hin Hatt.
  apply Hne. eapply visit_turn; [exact Hvis|exact Hin|by apply attempt_turn].
Qed.

Lemma loop_no_attempt hp cmds new appended v :
  loop_events sudo sig hp cmds new appended → ¬ In v cmds →
  filter (attempt_on v) new = [].
Proof.
  intros Hloop Hv. apply filter_none. intros e Hin Hatt.
  apply Hv. eapply loop_turn_in; [exact Hloop|exact Hin|by apply attempt_turn].
Qed.

(** A turn whose signal is not delivered warns, has sent once, and does not
    append the command. *)
Lemma visit_failed hp u seg b v err :
  visit_events sudo sig hp u seg b →
  In (EvDelivered v (Some err)) seg →
  u = v ∧ b = false ∧
  In (EvLog WarnLevel ("failed to stop process: " +:+ err)) seg ∧
  length (filter (attempt_on v) seg) = 1%nat.
Proof.
  intros Hvis Hin.
  assert (u = v) as -> by (eapply visit_turn; [exact Hvis|exact Hin|done]).
  destruct Hvis as [| | | |e0 Hs|cmd pid c e0 Hs Hv Hp]; in_cases Hin; try done.
  all: injection Hin as ->; split; [done|]; split; [done|]; split.
  all: try (cbn; tauto).
  all: cbn [app warn_failed];
    repeat first [rewrite filter_cons_True by done
                 |rewrite filter_cons_False by (cbn; tauto)];
    done.
Qed.

(** A turn whose signal is delivered appends the command. *)
Lemma visit_delivered hp u seg b v :
  visit_events sudo sig hp u seg b →
  In (EvDelivered v None) seg → u = v ∧ b = true.
Proof.
  intros Hvis Hin.
  assert (u = v) as -> by (eapply visit_turn; [exact Hvis|exact Hin|done]).
  destruct Hvis; in_cases Hin; try done.
  all: injection Hin as Herr; subst; done.
Qed.

Lemma loop_failed hp cmds new appended v err :
  loop_events sudo sig hp cmds new appended →
  NoDup cmds →
  In (EvDelivered v (Some err)) new →
  In (EvLog WarnLevel ("failed to stop process: " +:+ err)) new ∧
  length (filter (attempt_on v) new) = 1%nat ∧
  ¬ In v appended.
Proof.
  induction 1 as [|hp u rest seg b made more killed Hvis Hloop IH];
    intros Hnd Hin.
  { destruct Hin. }
  apply NoDup_cons in Hnd as [Hu Hnd]. rewrite list_elem_of_In in Hu.
  rewrite filter_app, length_app.
  apply in_app_iff in Hin as [Hin|Hin].
  - destruct (visit_failed _ _ _ _ _ _ Hvis Hin) as (-> & -> & Hlog & Hone).
    rewrite Hone, (loop_no_attempt _ _ _ _ _ Hloop Hu).
    split; [apply in_app_iff; by left|]. split; [done|].
    cbn [app]. intros Hk. apply Hu. by eapply loop_appended_in.
  - assert (Hv : In v rest) by (eapply loop_turn_in; [exact Hloop|exact Hin|done]).
    assert (Hne : u ≠ v) by (intros ->; done).
    destruct (IH Hnd Hin) as (Hlog & Hone & Hk).
    rewrite (visit_no_attempt _ _ _ _ _ Hvis Hne), Hone.
    split; [apply in_app_iff; by right|]. split; [done|].
    intros [Hb|Hb]%in_app_iff; [|done].
    destruct b; [|done]. destruct Hb as [->|[]]. done.
Qed.

(** Every signal sent in a turn has its result recorded in the turn. *)
Lemma visit_attempt_result hp u seg b v e :
  visit_events sudo sig hp u seg b →
  In e seg → attempt_on v e →
  ∃ err, In (EvDelivered v err) seg ∧
         match e with
         | EvSignal _ _ err' => err' = err
         | EvKill _ c _ => In (EvRun c err) seg
         | _ => False
         end.
Proof.
  intros Hvis Hin Hatt.
  destruct Hvis as [| | | |e0 Hs|cmd pid c e0 Hs Hv Hp]; in_cases Hin;
    subst e; cbn in Hatt; try done; subst u; exists e0; cbn; tauto.
Qed.

Lemma loop_attempt_result hp cmds new appended v e :
  loop_events sudo sig hp cmds new appended →
  In e new → attempt_on v e →
  ∃ err, In (EvDelivered v err) new ∧
         match e with
         | EvSignal _ _ err' => err' = err
         | EvKill _ c _ => In (EvRun c err) new
         | _ => False
         end.
Proof.
  induction 1 as [|hp u rest seg b made more killed Hvis Hloop IH]; intros Hin Hatt.
  { destruct Hin. }
  apply in_app_iff in Hin as [Hin|Hin].
  - destruct (visit_attempt_result _ _ _ _ _ _ Hvis Hin Hatt) as (err & Hd & He).
    exists err. split; [apply in_app_iff; by left|].
    destruct e; try done. apply in_app_iff. by left.
  - destruct (IH Hin Hatt) as (err & Hd & He).
    exists err. split; [apply in_app_iff; by right|].
    destruct e; try done. apply in_app_iff. by right.
Qed.

Lemma loop_delivered hp cmds new appended v :
  loop_events sudo sig hp cmds new appended →
  In (EvDelivered v None) new → In v appended.
Proof.
  induction 1 as [|hp u rest seg b made more killed Hvis Hloop IH]; intros Hin.
  { destruct Hin. }
  apply in_app_iff. apply in_app_iff in Hin as [Hin|Hin].
  - destruct (visit_delivered _ _ _ _ _ Hvis Hin) as [-> ->]. left. by left.
  - right. by apply IH.
Qed.

End Turns.

(** The elevated kill of a turn is made for the pid of the command, with
    the number [signum] gives. *)
Lemma loop_sudo_kill sig hp cmds new appended v cmd pid :
  loop_events true sig hp cmds new appended →
  hp !! v = Some cmd → Process cmd = Some pid →
  In (EvProcessState InKill v false) new →
  ∃ c err, In (EvKill v c (sudo_kill_argv sig pid)) new ∧
           In (EvRun c err) new ∧ In (EvDelivered v err) new.
Proof.
  intros Hloop. revert cmd pid.
  induction Hloop as [|hp u rest seg b made more killed Hvis Hloop IH];
    intros cmd pid Hv Hp Hin.
  { destruct Hin. }
  apply in_app_iff in Hin as [Hin|Hin].
  - assert (u = v) as -> by (eapply visit_turn; [exact Hvis|exact Hin|done]).
    destruct Hvis as [| | |cmd' Hv' Hp'|e0 Hs|cmd' pid' c e0 Hs Hv' Hp'];
      try (by repeat destruct Hin as [Hin|Hin]).
    + congruence.
    + assert (pid' = pid) as -> by congruence.
      exists c, e0. split_and!; apply in_app_iff; left; cbn; tauto.
  - destruct (IH cmd pid) as (c & e0 & H1 & H2 & H3); [|done|done|].
    { by apply lookup_app_l_Some. }
    exists c, e0. split_and!; apply in_app_iff; by right.
Qed.

Lemma loop_kill_argv sig hp cmds new appended v c argv :
  loop_events true sig hp cmds new appended →
  In (EvKill v c argv) new → ∃ pid, argv = sudo_kill_argv sig pid.
Proof.
  induction 1 as [|hp u rest seg b made more killed Hvis Hloop IH]; intros Hin.
  { destruct Hin. }
  apply in_app_iff in Hin as [Hin|Hin]; [|by apply IH].
  destruct Hvis as [| | | |e0 Hs|cmd pid c0 e0 Hs Hv Hp];
    try (by repeat destruct Hin as [Hin|Hin]).
  apply in_app_iff in Hin as [Hin|Hin].
  - repeat destruct Hin as [Hin|Hin]; try done. injection Hin as <- <-. by exists pid.
  - destruct e0; repeat destruct Hin as [Hin|Hin]; done.
Qed.

Lemma signum_unmappable sig : unmappable sig → signum sig = (-1)%Z.
Proof.
  destruct sig as [n|name]; cbn; [|done].
  intros [Hn|Hn].
  - by rewrite (proj2 (Z.ltb_lt n 0) Hn).
  - rewrite (proj2 (Z.geb_le n 65) Hn). by rewrite orb_true_r.
Qed.

(** What follows the loop in the events of [kill]. *)
Lemma after_loop_quiet (appended : list CmdPtr) (rest : list Event) v e :
  (rest = [] ∨ ∃ quiet, rest = EvWait appended :: quiet ∧ Forall after_wait quiet) →
  In e rest → ¬ turn_of v e ∧ ∀ l, e = EvWait l → l = appended.
Proof.
  intros [->|(quiet & -> & Hq)] Hin; [destruct Hin|].
  destruct Hin as [<-|Hin].
  { split; [tauto|]. by intros l [= <-]. }
  rewrite Forall_forall in Hq. apply list_elem_of_In, Hq in Hin.
  destruct e as [| | | | | | |[] ? ?| | | | |]; cbn in Hin; try done;
    (split; [cbn; tauto | intros l [=]]).
Qed.

Section RunnerFacts.
Context {Any Step : Type} `{L : @GoLib Any Step} (env : Env).
Implicit Types be : @buildEntry Any Step.
Implicit Types w : World.

(** [execDockerCommand] always returns: it makes one command, appends it to
    the registry and runs it. *)
Lemma execDockerCommand_spec (args : list string) w :
  let c := length (heap w) in
  let r := runs env c (docker_argv (d w) args) in
  execDockerCommand env args w =
    Returns (run_error r)
      {| d := with_command (d w) c;
         heap := heap w ++ [docker_command (d w) args r];
         trace := trace w ++ docker_command_events (d w) c args r |}.
Proof.
  intros c r. subst c r.
  unfold execDockerCommand, docker_command_events, docker_command, docker_argv,
    with_command.
  unfold bind, get_d, execCommand, set_Stdout, set_Stderr, append_command,
    Cmd_Run, emit, deref, store, bind, ret.
  destruct w as [dk hp tr]. cbn [d heap trace].
  destruct (useSudo dk) eqn:Hs, (flagVerbose dk) eqn:Hv; cbn [d heap trace app];
    heap_steps.
  all: match goal with
       | |- context [runs env ?c ?a] =>
           destruct (runs env c a) as [e|pid st [e|] out]
       end;
    cbn [d heap trace Args Stdout Stderr Process ProcessState StderrBuf run_error];
    heap_steps; rewrite <- ?app_assoc, ?Hs, ?Hv; reflexivity.
Qed.

(** One turn of the loop of [kill]: its events, and the state it returns in. *)
Lemma kill_body_shape sig v w :
  ∃ seg b,
    trace (final (kill_body env sig v w)) = trace w ++ seg ∧
    visit_events (useSudo (d w)) sig (heap w) v seg b ∧
    ∀ a w', kill_body env sig v w = Returns a w' →
      a = b ∧
      commands (d w') = commands (d w) ∧
      useSudo (d w') = useSudo (d w) ∧
      (∃ more, heap w' = heap w ++ more).
Proof.
  destruct w as [dk hp tr].
  unfold kill_body, bind, get_d, Lock, Unlock, exited, deref, emit, set_mutex,
    bind, ret, now.
  wsimpl.
  destruct (mutex dk) eqn:Hm.
  { exists [], false. wsimpl. rewrite app_nil_r.
    split; [done|]. split; [constructor|]. intros ?? [=]. }
  wsimpl.
  destruct (hp !! v) as [cmd|] eqn:Hv; wsimpl.
  2:{ exists [EvLock], false. split; [done|]. split; [constructor|]. intros ?? [=]. }
  destruct (match ProcessState cmd with Some _ => true | None => _ end) eqn:Hgone;
    wsimpl.
  { exists [EvLock; EvProcessState InKill v true], false.
    rewrite <- app_assoc. split; [done|]. split; [constructor|].
    intros ?? [= <- <-]. wsimpl. split_and!; try done.
    exists []. by rewrite app_nil_r. }
  destruct (useSudo dk) eqn:Hs;
    unfold Process_Pid, Process_Signal, Process_Pid, execCommand, Cmd_Run, panic,
      bind, deref, emit, store, ret, now; wsimpl; rewrite Hv;
    (destruct (Process cmd) as [pid|] eqn:Hp; wsimpl;
     [| exists [EvLock; EvProcessState InKill v false; EvUnlock], false;
        rewrite <- !app_assoc; split; [done|];
        split; [by eapply visit_not_started|]; intros ?? [=] ]).
  - heap_steps.
    destruct (runs env (length hp) _) as [e|pid0 st [e|] out]; wsimpl; heap_steps.
    + exists ([EvLock; EvProcessState InKill v false; EvUnlock;
               EvKill v (length hp) (sudo_kill_argv sig pid);
               EvRun (length hp) (Some e); EvDelivered v (Some e)] ++
              warn_failed (Some e)), (is_nil (Some e)).
      rewrite <- !app_assoc. split; [done|].
      split; [by eapply visit_sudo_kill|].
      intros ?? [= <- <-]. wsimpl. split_and!; try done. by eexists.
    + exists ([EvLock; EvProcessState InKill v false; EvUnlock;
               EvKill v (length hp) (sudo_kill_argv sig pid);
               EvRun (length hp) (Some e); EvDelivered v (Some e)] ++
              warn_failed (Some e)), (is_nil (Some e)).
      rewrite <- !app_assoc. split; [done|].
      split; [by eapply visit_sudo_kill|].
      intros ?? [= <- <-]. wsimpl. split_and!; try done. by eexists.
    + exists ([EvLock; EvProcessState InKill v false; EvUnlock;
               EvKill v (length hp) (sudo_kill_argv sig pid);
               EvRun (length hp) None; EvDelivered v None] ++
              warn_failed None), (is_nil None).
      rewrite <- !app_assoc. split; [done|].
      split; [by eapply visit_sudo_kill|].
      intros ?? [= <- <-]. wsimpl. split_and!; try done. by eexists.
  - destruct (signals env _ pid sig) as [e|] eqn:Hsig; wsimpl.
    + exists ([EvLock; EvProcessState InKill v false; EvUnlock;
               EvSignal v sig (Some e); EvDelivered v (Some e)] ++
              warn_failed (Some e)), (is_nil (Some e)).
      rewrite <- !app_assoc. split; [done|].
      split; [by eapply visit_signal|].
      intros ?? [= <- <-]. wsimpl. split_and!; try done.
      exists []. by rewrite app_nil_r.
    + exists ([EvLock; EvProcessState InKill v false; EvUnlock;
               EvSignal v sig None; EvDelivered v None] ++
              warn_failed None), (is_nil None).
      rewrite <- !app_assoc. split; [done|].
      split; [by eapply visit_signal|].
      intros ?? [= <- <-]. wsimpl. split_and!; try done.
      exists []. by rewrite app_nil_r.
Qed.

(** The loop of [kill] is a sequence of turns. *)
Lemma kill_loop_shape sig cmds killed w :
  ∃ new appended,
    trace (final (kill_loop env sig cmds killed w)) = trace w ++ new ∧
    loop_events (useSudo (d w)) sig (heap w) cmds new appended ∧
    ∀ killed' w', kill_loop env sig cmds killed w = Returns killed' w' →
      killed' = killed ++ appended.
Proof.
  revert killed w. induction cmds as [|v rest IH]; intros killed w.
  { exists [], []. rewrite !app_nil_r. split; [done|]. split; [constructor|].
    by intros ?? [= <- <-]. }
  destruct (kill_body_shape sig v w) as (seg & b & Htr & Hvis & Hret).
  cbn [kill_loop]. unfold bind.
  destruct (kill_body env sig v w) as [a w1|w1|msg w1|w1] eqn:Hbody.
  - destruct (Hret a w1 eq_refl) as (-> & _ & Hsudo & made & Hheap).
    destruct (IH (if b then killed ++ [v] else killed) w1)
      as (more & appended & Htr' & Hloop & Hret').
    exists (seg ++ more), ((if b then [v] else []) ++ appended).
    split; [|split].
    + rewrite Htr'. cbn [final] in Htr. rewrite Htr. by rewrite app_assoc.
    + econstructor; [exact Hvis|]. rewrite Hsudo, Hheap in Hloop. exact Hloop.
    + intros killed' w' Hk. rewrite (Hret' _ _ Hk).
      destruct b; by rewrite <- ?app_assoc.
  - exists seg, ((if b then [v] else []) ++ []). split; [exact Htr|]. split; [|intros ?? [=]].
    rewrite <- (app_nil_r seg). econstructor; [exact Hvis|]. apply (loop_stop _ _ (heap w ++ [])).
  - exists seg, ((if b then [v] else []) ++ []). split; [exact Htr|]. split; [|intros ?? [=]].
    rewrite <- (app_nil_r seg). econstructor; [exact Hvis|]. apply (loop_stop _ _ (heap w ++ [])).
  - exists seg, ((if b then [v] else []) ++ []). split; [exact Htr|]. split; [|intros ?? [=]].
    rewrite <- (app_nil_r seg). econstructor; [exact Hvis|]. apply (loop_stop _ _ (heap w ++ [])).
Qed.

(** [waitForProcess] only ticks, locks, reads and unlocks. *)
Lemma poll_shape cmds finish w :
  ∃ new, trace (final (poll env cmds finish w)) = trace w ++ new ∧
         Forall after_wait new.
Proof.
  revert finish w. induction cmds as [|v rest IH]; intros finish w.
  { exists []. by rewrite app_nil_r. }
  destruct w as [dk hp tr]. cbn [poll].
  unfold bind, Lock, Unlock, exited, deref, emit, set_mutex, bind, ret, now.
  wsimpl.
  destruct (mutex dk); wsimpl.
  { exists []. by rewrite app_nil_r. }
  destruct (hp !! v) as [cmd|]; wsimpl.
  2:{ exists [EvLock]. split; [done|]. repeat constructor. }
  match goal with |- context [poll env rest ?f ?w1] =>
    destruct (IH f w1) as (new & Htr & Hall) end.
  exists ([EvLock; EvProcessState InWait v
             (match ProcessState cmd with Some _ => true | None => exitedBy env (length (tr ++ [EvLock])) v end);
           EvUnlock] ++ new).
  split; [|apply Forall_app; split; [repeat constructor | exact Hall]].
  rewrite Htr. wsimpl. by rewrite <- !app_assoc.
Qed.

Lemma wait_loop_shape fuel cmds retryCnt w :
  ∃ new, trace (final (wait_loop env fuel cmds retryCnt w)) = trace w ++ new ∧
         Forall after_wait new.
Proof.
  revert retryCnt w. induction fuel as [|fuel IH]; intros retryCnt w.
  { exists []. by rewrite app_nil_r. }
  cbn [wait_loop]. unfold bind, emit.
  match goal with |- context [poll env cmds true ?w1] =>
    destruct (poll_shape cmds true w1) as (new & Htr & Hall);
    destruct (poll env cmds true w1) as [finish w2|w2|msg w2|w2] eqn:Hpoll end;
    cbn [final trace] in Htr.
  2-4: exists (EvTick :: new); cbn [final]; rewrite Htr, <- app_assoc;
       split; [done|]; by constructor.
  destruct finish; [|destruct (retryCnt + 1 >? retryMax)%Z].
  1-2: exists (EvTick :: new); cbn [final ret]; rewrite Htr, <- app_assoc;
       split; [done|]; by constructor.
  destruct (IH (retryCnt + 1)%Z w2) as (new' & Htr' & Hall').
  exists (EvTick :: new ++ new'). rewrite Htr', Htr, <- !app_assoc.
  split; [done|]. constructor; [done|]. by apply Forall_app.
Qed.

(** [kill]: the turns of the loop, then, if the loop has ended, the wait for
    the commands it appended. *)
Lemma kill_shape fuel sig w :
  ∃ loop_new appended rest,
    new_events (kill env fuel sig) w = loop_new ++ rest ∧
    loop_events (useSudo (d w)) sig (heap w) (commands (d w)) loop_new appended ∧
    (rest = [] ∨
     ∃ quiet, rest = EvWait appended :: quiet ∧ Forall after_wait quiet).
Proof.
  unfold new_events, kill, bind, get_d.
  destruct (kill_loop_shape sig (commands (d w)) [] w)
    as (loop_new & appended & Htr & Hloop & Hret).
  exists loop_new, appended.
  destruct (kill_loop env sig (commands (d w)) [] w) as [killed w1|w1|msg w1|w1]
    eqn:Hk; cbn [final] in Htr.
  2-4: exists []; cbn [final]; rewrite Htr, drop_app_length, app_nil_r; auto.
  rewrite (Hret _ _ eq_refl). cbn [app].
  unfold waitForProcess, bind, emit.
  match goal with |- context [wait_loop env fuel appended 0%Z ?w2] =>
    destruct (wait_loop_shape fuel appended 0%Z w2) as (new & Htr' & Hall);
    destruct (wait_loop env fuel appended 0%Z w2) as [[e|] w3|w3|msg w3|w3] end;
    cbn [final trace] in Htr'.
  1: exists (EvWait appended :: new ++ [EvLog WarnLevel e]).
  2-5: exists (EvWait appended :: new).
  all: unfold emit, ret; cbn [final trace]; rewrite Htr', Htr, <- !app_assoc, drop_app_length.
  all: split; [done|]; split; [done|]; right; eexists; split; [reflexivity|].
  all: try apply Forall_app; auto. split; auto. by repeat constructor.
Qed.

(** C2. A command of the registry whose exit [kill] finds recorded when it
    comes to it in its loop is sent nothing by [kill]: no event of the call
    is a [Signal] on its process or an elevated kill made for it, however
    the call ends. The registry holds each command once: [New] starts with
    such a registry and every method keeps it so ([registry_ok_kept]). *)
Theorem kill_spares_exited fuel sig w v :
  NoDup (commands (d w)) →
  In (EvProcessState InKill v true) (new_events (kill env fuel sig) w) →
  ∀ e, In e (new_events (kill env fuel sig) w) → ¬ attempt_on v e.
Proof.
  intros Hnd Hex e Hin Hatt.
  destruct (kill_shape fuel sig w) as (loop_new & appended & rest & Hnew & Hloop & Hrest).
  rewrite Hnew in Hex, Hin.
  apply in_app_iff in Hex as [Hex|Hex].
  2:{ by destruct (after_loop_quiet _ _ v _ Hrest Hex) as [Hturn _]. }
  apply in_app_iff in Hin as [Hin|Hin].
  - exact (loop_exited_quiet _ _ _ _ _ _ _ _ Hloop Hnd Hex Hin Hatt).
  - destruct (after_loop_quiet _ _ v _ Hrest Hin) as [Hturn _].
    by apply Hturn, attempt_turn.
Qed.

(** The result of every [Signal] and of every elevated kill of [kill] is the
    [err] recorded for the command it was sent to. *)
Lemma kill_attempt_result fuel sig w v e :
  In e (new_events (kill env fuel sig) w) → attempt_on v e →
  ∃ err, In (EvDelivered v err) (new_events (kill env fuel sig) w) ∧
         match e with
         | EvSignal _ _ err' => err' = err
         | EvKill _ c _ => In (EvRun c err) (new_events (kill env fuel sig) w)
         | _ => False
         end.
Proof.
  intros Hin Hatt.
  destruct (kill_shape fuel sig w) as (loop_new & appended & rest & Hnew & Hloop & Hrest).
  rewrite Hnew in *.
  apply in_app_iff in Hin as [Hin|Hin].
  - destruct (loop_attempt_result _ _ _ _ _ _ _ _ Hloop Hin Hatt) as (err & Hd & He).
    exists err. split; [apply in_app_iff; by left|].
    destruct e; try done. apply in_app_iff. by left.
  - destruct (after_loop_quiet _ _ v _ Hrest Hin) as [Hturn _].
    by apply attempt_turn in Hatt.
Qed.

(** A failed delivery in a call of [kill]: the warning, the single attempt,
    and the wait without the command. *)
Lemma kill_failure_handled fuel sig w v err :
  NoDup (commands (d w)) →
  In (EvDelivered v (Some err)) (new_events (kill env fuel sig) w) →
  In (EvLog WarnLevel ("failed to stop process: " +:+ err))
     (new_events (kill env fuel sig) w) ∧
  length (filter (attempt_on v) (new_events (kill env fuel sig) w)) = 1%nat ∧
  ∀ cmds, In (EvWait cmds) (new_events (kill env fuel sig) w) → ¬ In v cmds.
Proof.
  intros Hnd Hin.
  destruct (kill_shape fuel sig w) as (loop_new & appended & rest & Hnew & Hloop & Hrest).
  rewrite Hnew in *.
  apply in_app_iff in Hin as [Hin|Hin].
  2:{ by destruct (after_loop_quiet _ _ v _ Hrest Hin) as [Hturn _]. }
  destruct (loop_failed _ _ _ _ _ _ _ _ Hloop Hnd Hin) as (Hlog & Hone & Hk).
  split; [apply in_app_iff; by left|]. split.
  - rewrite filter_app, length_app, Hone.
    rewrite (filter_none (attempt_on v) rest); [done|].
    intros e He Hatt. destruct (after_loop_quiet _ _ v _ Hrest He) as [Hturn _].
    by apply Hturn, attempt_turn.
  - intros cmds [Hw|Hw]%in_app_iff.
    + by apply (loop_no_wait _ _ _ _ _ _ cmds) in Hloop.
    + destruct (after_loop_quiet _ _ v _ Hrest Hw) as [_ Heq].
      by rewrite (Heq cmds eq_refl).
Qed.

(** C3. When the delivery of the signal to a command of the registry fails
    (the error [kill] gets back from [Signal] or from the run of the elevated
    kill is not nil), [kill] logs the warning with that error, has sent to
    that command exactly once, and does not pass the command to
    [waitForProcess]. The registry holds each command once
    ([registry_ok_kept]); every [Signal] and every elevated kill has its
    result recorded as this error ([kill_attempt_result]). *)
Theorem kill_failed_delivery fuel sig w v err :
  NoDup (commands (d w)) →
  In (EvDelivered v (Some err)) (new_events (kill env fuel sig) w) →
  In (EvLog WarnLevel ("failed to stop process: " +:+ err))
     (new_events (kill env fuel sig) w) ∧
  length (filter (attempt_on v) (new_events (kill env fuel sig) w)) = 1%nat ∧
  ∀ cmds, In (EvWait cmds) (new_events (kill env fuel sig) w) → ¬ In v cmds.
Proof. apply kill_failure_handled. Qed.

(** C9, as amended. For a signal that has no number ([signum] gives -1 for
    it), the elevated kill is not skipped: for every command that [kill]
    finds not exited and started, it runs [sudo kill --1 pid]; every
    elevated kill it makes has this form. The command is left out of the
    wait and a warning is logged exactly when that run returns an error;
    when it returns nil the command is waited for. *)
Theorem kill_unmappable_signal fuel sig w :
  unmappable sig →
  useSudo (d w) = true →
  NoDup (commands (d w)) →
  signum sig = -1 ∧
  (∀ v c argv,
     In (EvKill v c argv) (new_events (kill env fuel sig) w) →
     ∃ pid, argv = ["sudo"; "kill"; "--1"; itoa pid]) ∧
  (∀ v cmd pid,
     heap w !! v = Some cmd → Process cmd = Some pid →
     In (EvProcessState InKill v false) (new_events (kill env fuel sig) w) →
     ∃ c err,
       In (EvKill v c ["sudo"; "kill"; "--1"; itoa pid])
          (new_events (kill env fuel sig) w) ∧
       In (EvRun c err) (new_events (kill env fuel sig) w) ∧
       In (EvDelivered v err) (new_events (kill env fuel sig) w)) ∧
  (∀ v err,
     In (EvDelivered v (Some err)) (new_events (kill env fuel sig) w) →
     In (EvLog WarnLevel ("failed to stop process: " +:+ err))
        (new_events (kill env fuel sig) w) ∧
     ∀ cmds, In (EvWait cmds) (new_events (kill env fuel sig) w) → ¬ In v cmds) ∧
  (∀ v,
     In (EvDelivered v None) (new_events (kill env fuel sig) w) →
     ∀ cmds, In (EvWait cmds) (new_events (kill env fuel sig) w) → In v cmds).
Proof.
  intros Hsig Hsudo Hnd.
  pose proof (signum_unmappable sig Hsig) as Hnum.
  assert (Hargv : ∀ pid, sudo_kill_argv sig pid = ["sudo"; "kill"; "--1"; itoa pid]).
  { intros pid. unfold sudo_kill_argv. by rewrite Hnum. }
  split; [exact Hnum|].
  split; [|split; [|split]].
  - intros v c argv Hin.
    destruct (kill_shape fuel sig w) as (loop_new & appended & rest & Hnew & Hloop & Hrest).
    rewrite Hnew in Hin. rewrite Hsudo in Hloop.
    apply in_app_iff in Hin as [Hin|Hin].
    + destruct (loop_kill_argv _ _ _ _ _ _ _ _ Hloop Hin) as [pid ->].
      exists pid. apply Hargv.
    + by destruct (after_loop_quiet _ _ v _ Hrest Hin) as [Hturn _].
  - intros v cmd pid Hv Hp Hin.
    destruct (kill_shape fuel sig w) as (loop_new & appended & rest & Hnew & Hloop & Hrest).
    rewrite Hnew in *. rewrite Hsudo in Hloop.
    apply in_app_iff in Hin as [Hin|Hin].
    2:{ by destruct (after_loop_quiet _ _ v _ Hrest Hin) as [Hturn _]. }
    destruct (loop_sudo_kill _ _ _ _ _ _ _ _ Hloop Hv Hp Hin) as (c & e & H1 & H2 & H3).
    rewrite Hargv in H1.
    exists c, e. split_and!; apply in_app_iff; by left.
  - intros v err Hin.
    destruct (kill_failure_handled fuel sig w v err Hnd Hin) as (Hlog & _ & Hw).
    by split.
  - intros v Hin cmds Hw.
    destruct (kill_shape fuel sig w) as (loop_new & appended & rest & Hnew & Hloop & Hrest).
    rewrite Hnew in *.
    apply in_app_iff in Hin as [Hin|Hin].
    2:{ by destruct (after_loop_quiet _ _ v _ Hrest Hin) as [Hturn _]. }
    apply in_app_iff in Hw as [Hw|Hw].
    { by apply (loop_no_wait _ _ _ _ _ _ cmds) in Hloop. }
    destruct (after_loop_quiet _ _ v _ Hrest Hw) as [_ Heq].
    rewrite (Heq cmds eq_refl).
    by eapply loop_delivered.
Qed.

(** C8. When [runBuild] gets as far as the container run (the entry has an
    environment, it can be serialized and the pull succeeds), it makes
    exactly two commands: the pull, and [docker container run] followed by
    the privileged flag if [UsePrivileged] is set, the memory-limit flag if
    [MemoryLimit] is not empty, and then [--rm], the four mounts (source,
    artifacts, shared binaries, shared support), the image, the entry
    script, the serialized entry, the job name, the API URL, the store URL
    and the log file path, in this order. *)
Theorem runBuild_arguments be w (environment : EnvVar) others configJSON
    pid state out :
  Environment be = environment :: others →
  json_Marshal be = inl configJSON →
  runs env (length (heap w)) (docker_argv (d w) ["pull"; Image be])
    = Finishes pid state None out →
  ∃ r,
    new_events (runBuild env be) w =
      [EvLog InfoLevel ("Pulling docker image from " +:+ Image be +:+ "...")] ++
      docker_command_events (d w) (length (heap w)) ["pull"; Image be]
        (Finishes pid state None out) ++
      docker_command_events (d w) (S (length (heap w)))
        (spec_run_arguments (d w) be environment configJSON) r.
Proof.
  intros He Hj Hp.
  unfold new_events, runBuild, bind, get_d. rewrite He, Hj.
  unfold emit. rewrite execDockerCommand_spec. cbn [d heap trace].
  rewrite Hp. cbn [run_error].
  rewrite execDockerCommand_spec. cbn [d heap trace final].
  match goal with
  | |- context [docker_argv _ ?args] =>
      assert (args = spec_run_arguments (d w) be environment configJSON) as ->
  end.
  { unfold spec_run_arguments, scmHost, orgRepo, LogFile.
    destruct (UsePrivileged be), (decide (MemoryLimit be = "")) as [Hm|Hm];
      case_bool_decide; try contradiction; reflexivity. }
  rewrite length_app, Nat.add_1_r. cbn [length].
  change (docker_argv (with_command (d w) (length (heap w))))
    with (docker_argv (d w)).
  exists (runs env (S (length (heap w)))
            (docker_argv (d w) (spec_run_arguments (d w) be environment configJSON))).
  destruct (run_error _); cbn [ret final trace];
    rewrite <- !app_assoc, drop_app_length; reflexivity.
Qed.

(** C10. When [docker] is not found in the path, [Run] returns the error
    that names the command and calls no method of the runner, whatever the
    runner is: the state is the one it was called in. For the launcher made
    by [New] the registry and the heap of commands are empty before and
    after, and the trace holds the warnings of the assembler only. *)
Theorem Run_docker_not_found (err : error) :
  lookPath env "docker" = inr err →
  (∀ (S : Type) (l : @launch Any Step S) (s : S),
     Run env l s =
       Returns (Some ("`docker` command is not found in $PATH: " +:+ err)) s) ∧
  (∀ option : @Option Any Step,
     let w := (New env option).2 in
     final (Run env (New env option).1 w) = w ∧
     commands (d w) = [] ∧ heap w = [] ∧
     trace w = (createBuildEntry option).2).
Proof.
  intros Hlook.
  assert (Hrun : ∀ (S : Type) (l : @launch Any Step S) (s : S),
             Run env l s =
               Returns (Some ("`docker` command is not found in $PATH: " +:+ err)) s).
  { intros S l s. unfold Run. rewrite Hlook. reflexivity. }
  split; [exact Hrun|].
  intros option w. rewrite Hrun. subst w. unfold New.
  destruct (createBuildEntry option) as [b warnings]. done.
Qed.

End RunnerFacts.

(** ** The bounded wait *)

Lemma ticks_app a b : ticks (a ++ b) = (ticks a + ticks b)%nat.
Proof. unfold ticks. by rewrite filter_app, length_app. Qed.

Lemma ticks_tick t : ticks (EvTick :: t) = S (ticks t).
Proof. unfold ticks. by rewrite filter_cons_True. Qed.

Lemma ticks_other e t : e ≠ EvTick → ticks (e :: t) = ticks t.
Proof. intros He. unfold ticks. by rewrite filter_cons_False. Qed.

Section Progress.
Context (env : Env).
Implicit Types w : World.

(** With the mutex free, one look at every command returns with the mutex
    free. *)
Lemma poll_returns cmds finish w :
  mutex (d w) = false →
  Forall (fun v => (v < length (heap w))%nat) cmds →
  ∃ b w' new,
    poll env cmds finish w = Returns b w' ∧
    mutex (d w') = false ∧ heap w' = heap w ∧
    trace w' = trace w ++ new ∧ ticks new = 0%nat.
Proof.
  revert finish w. induction cmds as [|v rest IH]; intros finish w Hm Hvalid.
  { exists finish, w, []. by rewrite app_nil_r. }
  apply Forall_cons in Hvalid as [Hv Hvalid].
  apply lookup_lt_is_Some in Hv as [cmd Hv].
  destruct w as [dk hp tr]. cbn [d heap trace] in *.
  cbn [poll]. unfold bind, Lock, Unlock, exited, deref, emit, set_mutex, bind, ret, now.
  wsimpl. rewrite Hm. wsimpl. rewrite Hv. wsimpl.
  match goal with |- context [poll env rest ?f ?w1] =>
    destruct (IH f w1) as (b & w' & new & Hret & Hm' & Hheap & Htr & Hticks);
      [done|done|] end.
  eexists b, w', (_ :: _ :: _ :: new).
  split; [exact Hret|]. split; [exact Hm'|]. split; [exact Hheap|].
  split; [rewrite Htr; wsimpl; by rewrite <- !app_assoc|].
  by rewrite !ticks_other.
Qed.

(** The loop of [waitForProcess] from [retryCnt] on returns within
    [retryMax + 1 - retryCnt] turns. *)
Lemma wait_loop_returns fuel cmds (retryCnt : Z) w :
  (0 <= retryCnt <= retryMax)%Z →
  (Z.to_nat (retryMax + 1 - retryCnt) <= fuel)%nat →
  mutex (d w) = false →
  Forall (fun v => (v < length (heap w))%nat) cmds →
  ∃ err w' new,
    wait_loop env fuel cmds retryCnt w = Returns err w' ∧
    mutex (d w') = false ∧
    trace w' = trace w ++ new ∧
    (ticks new <= Z.to_nat (retryMax + 1 - retryCnt))%nat ∧
    (err = None ∨
     err = Some "waited 10 seconds and could not confirm that the process was dead" ∧
     ticks new = Z.to_nat (retryMax + 1 - retryCnt)).
Proof.
  unfold retryMax.
  revert retryCnt w. induction fuel as [|fuel IH]; intros n w Hn Hfuel Hm Hvalid.
  { lia. }
  cbn [wait_loop]. unfold bind, emit.
  match goal with |- context [poll env cmds true ?w1] =>
    destruct (poll_returns cmds true w1) as (b & w1' & new & Hret & Hm' & Hheap & Htr & Hticks);
      [done|done|] end.
  rewrite Hret. cbn [trace] in Htr.
  destruct b.
  { exists None, w1', (EvTick :: new). unfold ret. split; [done|]. split; [done|].
    split; [rewrite Htr; by rewrite <- app_assoc|].
    split; [|by left]. rewrite ticks_tick. lia. }
  unfold retryMax. destruct (n + 1 >? 9)%Z eqn:Hcmp.
  { apply Z.gtb_lt in Hcmp.
    eexists _, w1', (EvTick :: new). unfold ret. split; [reflexivity|]. split; [done|].
    split; [rewrite Htr; by rewrite <- app_assoc|].
    assert (n = 9%Z) as -> by lia.
    rewrite ticks_tick, Hticks.
    split; [done|]. right. split; reflexivity. }
  assert (Hle : (n + 1 <= 9)%Z).
  { destruct (Z.gtb_spec (n + 1) 9); [done|lia]. }
  destruct (IH (n + 1)%Z w1') as (err & w2 & new' & Hret' & Hm'' & Htr' & Hle' & Herr);
    [lia|lia|done|by rewrite Hheap|].
  exists err, w2, (EvTick :: new ++ new'). split; [done|]. split; [done|].
  split; [rewrite Htr', Htr; by rewrite <- !app_assoc|].
  rewrite ticks_tick, ticks_app, Hticks.
  split; [lia|]. destruct Herr as [->|[-> Heq]]; [by left|right].
  split; [done|]. lia.
Qed.

(** With the mutex free and ten units of fuel, [waitForProcess] returns
    after at most ten ticks: nil, or the timeout error after the tenth. *)
Lemma waitForProcess_returns fuel cmds w :
  (10 <= fuel)%nat →
  mutex (d w) = false →
  Forall (fun v => (v < length (heap w))%nat) cmds →
  ∃ err w',
    waitForProcess env fuel cmds w = Returns err w' ∧
    mutex (d w') = false ∧
    (ticks (new_events (waitForProcess env fuel cmds) w) <= 10)%nat ∧
    (err = None ∨
     err = Some "waited 10 seconds and could not confirm that the process was dead" ∧
     ticks (new_events (waitForProcess env fuel cmds) w) = 10%nat).
Proof.
  intros Hfuel Hm Hvalid. unfold new_events, waitForProcess, bind, emit.
  match goal with |- context [wait_loop env fuel cmds 0%Z ?w1] =>
    destruct (wait_loop_returns fuel cmds 0%Z w1)
      as (err & w' & new & Hret & Hm' & Htr & Hle & Herr);
      [unfold retryMax; lia|unfold retryMax; cbn; lia|done|done|] end.
  exists err, w'. rewrite Hret. cbn [final]. cbn [trace] in Htr.
  rewrite Htr, <- app_assoc, drop_app_length.
  assert (Hcons : ticks ([EvWait cmds] ++ new) = ticks new).
  { cbn [app]. by rewrite ticks_other. }
  rewrite Hcons. unfold retryMax in *. cbn in Hle, Herr.
  split; [done|]. split; [done|]. split; [lia|].
  destruct Herr as [->|[-> ->]]; [by left|right]. done.
Qed.

Lemma is_started_app hp made v : is_started hp v → is_started (hp ++ made) v.
Proof.
  intros (cmd & pid & Hv & Hp). exists cmd, pid. split; [|done].
  by apply lookup_app_l_Some.
Qed.

Lemma is_started_valid hp v : is_started hp v → (v < length hp)%nat.
Proof. intros (cmd & pid & Hv & _). by eapply lookup_lt_Some. Qed.

(** A turn on a started command, the mutex free: either the command is seen
    exited, or the turn returns with the mutex free. *)
Lemma kill_body_progress sig v w :
  mutex (d w) = false →
  is_started (heap w) v →
  ∃ b w',
    kill_body env sig v w = Returns b w' ∧
    commands (d w') = commands (d w) ∧
    (∃ made, heap w' = heap w ++ made) ∧
    (In (EvProcessState InKill v true) (drop (length (trace w)) (trace w')) ∨
     mutex (d w') = false).
Proof.
  intros Hm (cmd & pid & Hv & Hp).
  destruct w as [dk hp tr]. cbn [d heap trace] in *.
  unfold kill_body, bind, get_d, Lock, Unlock, exited, deref, emit, set_mutex,
    bind, ret, now.
  wsimpl. rewrite Hm. wsimpl. rewrite Hv. wsimpl.
  destruct (match ProcessState cmd with Some _ => true | None => _ end); wsimpl.
  { eexists _, _. split; [reflexivity|]. wsimpl. split; [done|].
    split; [exists []; by rewrite app_nil_r|]. left.
    rewrite <- app_assoc, drop_app_length. cbn. tauto. }
  destruct (useSudo dk);
    unfold Process_Pid, Process_Signal, Process_Pid, execCommand, Cmd_Run, panic,
      bind, deref, emit, store, ret, now; wsimpl; rewrite Hv; wsimpl; rewrite Hp;
    wsimpl.
  - heap_steps.
    destruct (runs env (length hp) _) as [e|pid0 st [e|] out]; wsimpl; heap_steps;
      (eexists _, _; split; [reflexivity|]; wsimpl; split; [done|];
       split; [by eexists|by right]).
  - destruct (signals env _ pid sig) as [e|]; wsimpl;
      (eexists _, _; split; [reflexivity|]; wsimpl; split; [done|];
       split; [exists []; by rewrite app_nil_r|by right]).
Qed.

Lemma kill_loop_progress sig cmds killed w :
  mutex (d w) = false →
  Forall (is_started (heap w)) cmds →
  Forall (fun v => (v < length (heap w))%nat) killed →
  (∀ v, ¬ In (EvProcessState InKill v true)
          (drop (length (trace w)) (trace (final (kill_loop env sig cmds killed w))))) →
  ∃ killed' w',
    kill_loop env sig cmds killed w = Returns killed' w' ∧
    mutex (d w') = false ∧
    Forall (fun v => (v < length (heap w'))%nat) killed'.
Proof.
  revert killed w. induction cmds as [|v rest IH]; intros killed w Hm Hst Hk Hnone.
  { by exists killed, w. }
  apply Forall_cons in Hst as [Hv Hst].
  destruct (kill_body_progress sig v w Hm Hv)
    as (b & w1 & Hbody & Hcmds & (made & Hheap) & Hcase).
  destruct (kill_body_shape env sig v w) as (seg & b0 & Htr & _ & _).
  rewrite Hbody in Htr. cbn [final] in Htr.
  cbn [kill_loop] in *. unfold bind in *. rewrite Hbody in *.
  destruct (kill_loop_shape env sig rest (if b then killed ++ [v] else killed) w1)
    as (more & appended & Htr' & _ & _).
  rewrite Htr', Htr, <- app_assoc, drop_app_length in Hnone.
  assert (Hm1 : mutex (d w1) = false).
  { destruct Hcase as [Hex|Hm1]; [|done].
    rewrite Htr, drop_app_length in Hex.
    exfalso. apply (Hnone v), in_app_iff. by left. }
  apply IH; [done| | |].
  - rewrite Hheap. eapply Forall_impl; [exact Hst|]. intros u. apply is_started_app.
  - rewrite Hheap, length_app.
    destruct b; [apply Forall_app; split|];
      try (eapply Forall_impl; [exact Hk|]; cbn; intros; lia).
    constructor; [|done]. apply is_started_valid in Hv. lia.
  - intros u Hin. apply (Hnone u), in_app_iff. right.
    by rewrite Htr', drop_app_length in Hin.
Qed.

(** The defect of the loop of [kill]: the turn on an exited command returns
    with the mutex locked. *)
Lemma kill_body_exited_keeps_lock sig v w cmd state :
  mutex (d w) = false →
  heap w !! v = Some cmd →
  ProcessState cmd = Some state →
  ∃ w',
    kill_body env sig v w = Returns false w' ∧
    mutex (d w') = true ∧
    trace w' = trace w ++ [EvLock; EvProcessState InKill v true].
Proof.
  intros Hm Hv Hstate. destruct w as [dk hp tr]. cbn [d heap trace] in *.
  unfold kill_body, bind, get_d, Lock, Unlock, exited, deref, emit, set_mutex,
    bind, ret, now.
  wsimpl. rewrite Hm. wsimpl. rewrite Hv. wsimpl. rewrite Hstate. wsimpl.
  eexists. split; [reflexivity|]. wsimpl. by rewrite <- app_assoc.
Qed.

(** The next turn then never returns. *)
Lemma kill_body_blocks sig v w :
  mutex (d w) = true → kill_body env sig v w = Blocks w.
Proof.
  intros Hm. unfold kill_body, bind, get_d, Lock. by rewrite Hm.
Qed.

(** The events of [kill] start with the events of its loop. *)
Lemma kill_events_prefix fuel sig w :
  ∃ rest,
    new_events (kill env fuel sig) w =
      new_events (kill_loop env sig (commands (d w)) []) w ++ rest.
Proof.
  unfold new_events, kill, bind, get_d.
  destruct (kill_loop_shape env sig (commands (d w)) [] w)
    as (loop_new & appended & Htr & _ & _).
  destruct (kill_loop env sig (commands (d w)) [] w) as [killed w1|w1|msg w1|w1];
    cbn [final] in *.
  2-4: exists []; by rewrite app_nil_r.
  unfold waitForProcess, bind, emit.
  match goal with |- context [wait_loop env fuel killed 0%Z ?w2] =>
    destruct (wait_loop_shape env fuel killed 0%Z w2) as (new & Htr' & _);
    destruct (wait_loop env fuel killed 0%Z w2) as [[e|] w3|w3|msg w3|w3] end;
    cbn [final trace] in Htr'.
  1: exists (EvWait killed :: new ++ [EvLog WarnLevel e]).
  2-5: exists (EvWait killed :: new).
  all: unfold emit, ret; cbn [final trace];
    rewrite Htr', Htr, <- !app_assoc, !drop_app_length; done.
Qed.

(** When the loop of [kill] meets no exited command, [kill] returns, with
    the mutex free. *)
Lemma kill_returns_when_none_exited fuel sig w :
  (10 <= fuel)%nat →
  mutex (d w) = false →
  Forall (is_started (heap w)) (commands (d w)) →
  (∀ v, ¬ In (EvProcessState InKill v true) (new_events (kill env fuel sig) w)) →
  ∃ w', kill env fuel sig w = Returns tt w' ∧ mutex (d w') = false.
Proof.
  intros Hfuel Hm Hst Hnone.
  destruct (kill_events_prefix fuel sig w) as [rest Hnew].
  destruct (kill_loop_progress sig (commands (d w)) [] w Hm Hst)
    as (killed & w1 & Hloop & Hm1 & Hvalid); [done| |].
  { intros v Hin. apply (Hnone v). rewrite Hnew. apply in_app_iff. by left. }
  destruct (waitForProcess_returns fuel killed w1 Hfuel Hm1 Hvalid)
    as (err & w2 & Hwait & Hm2 & _).
  unfold kill, bind, get_d. rewrite Hloop, Hwait.
  destruct err as [e|]; [|by exists w2].
  eexists. split; [reflexivity|]. exact Hm2.
Qed.
End Progress.

(** ** What the methods keep *)

Section Preserves.
Context {Any Step : Type} `{L : @GoLib Any Step} (env : Env).
Context (P : World → Prop).
Implicit Types w : World.

Lemma preserves_ret {A} (a : A) : preserves P (ret a).
Proof. by intros w Hw. Qed.

Lemma preserves_bind {A B} (m : M World A) (k : A → M World B) :
  preserves P m → (∀ a, preserves P (k a)) → preserves P (bind m k).
Proof.
  intros Hm Hk w Hw. specialize (Hm w Hw). unfold bind.
  destruct (m w) as [a w1|w1|msg w1|w1]; cbn [final] in *; try done.
  by apply Hk.
Qed.

Lemma preserves_panic {A} msg : preserves P (panic (A := A) msg).
Proof. by intros w Hw. Qed.

Lemma preserves_get_d : preserves P get_d.
Proof. by intros w Hw. Qed.

Lemma preserves_deref c : preserves P (deref c).
Proof. intros w Hw. unfold deref. by destruct (heap w !! c). Qed.

Context (Hsteps : closed_under_steps P).

Ltac preserves_step :=
  first
    [ apply preserves_ret | apply preserves_panic | apply preserves_get_d
    | apply preserves_deref
    | apply (step_emit Hsteps) | apply (step_set_mutex Hsteps)
    | apply (step_store Hsteps) | apply (step_execCommand Hsteps)
    | apply preserves_bind; [|intros ?]
    | match goal with
      | |- preserves _ (match ?x with _ => _ end) => destruct x
      end ].

Ltac preserves_steps := repeat preserves_step.

Lemma preserves_Lock : preserves P Lock.
Proof using Hsteps.
  intros w Hw. unfold Lock. destruct (mutex (d w)); [done|].
  revert w Hw. fold (preserves P (bind (set_mutex true) (fun _ => emit EvLock))).
  preserves_steps.
Qed.

Lemma preserves_Unlock : preserves P Unlock.
Proof using Hsteps.
  intros w Hw. unfold Unlock. destruct (mutex (d w)); [|done].
  revert w Hw. fold (preserves P (bind (set_mutex false) (fun _ => emit EvUnlock))).
  preserves_steps.
Qed.

Lemma preserves_exited site v : preserves P (exited env site v).
Proof using Hsteps.
  unfold exited. apply preserves_bind; [apply preserves_deref|]. intros cmd w Hw.
  revert w Hw.
  match goal with |- ∀ w, P w → P (final (?m w)) =>
    intros w; generalize (exitedBy env (now w) v); intros b; revert w end.
  intros w Hw. destruct (ProcessState cmd).
  all: revert w Hw; match goal with |- ∀ w, P w → P (final (?m w)) => change (preserves P m) end; preserves_steps.
Qed.

Lemma preserves_Process_Pid v : preserves P (Process_Pid v).
Proof. unfold Process_Pid. preserves_steps. Qed.

Lemma preserves_Process_Signal v sig : preserves P (Process_Signal env v sig).
Proof using Hsteps.
  unfold Process_Signal. apply preserves_bind; [apply preserves_Process_Pid|].
  intros pid w. generalize (signals env (now w) pid sig). intros err. revert w.
  change (preserves P (bind (emit (EvSignal v sig err)) (fun _ => ret err))).
  preserves_steps.
Qed.

Lemma preserves_Cmd_Run c : preserves P (Cmd_Run env c).
Proof using Hsteps. unfold Cmd_Run. preserves_steps. Qed.

Lemma preserves_kill_body sig v : preserves P (kill_body env sig v).
Proof using Hsteps.
  unfold kill_body.
  repeat first
    [ apply preserves_Lock | apply preserves_Unlock | apply preserves_exited
    | apply preserves_Process_Pid | apply preserves_Process_Signal
    | apply preserves_Cmd_Run
    | preserves_step ].
Qed.

Lemma preserves_kill_loop sig cmds killed : preserves P (kill_loop env sig cmds killed).
Proof using Hsteps.
  revert killed. induction cmds as [|v rest IH]; intros killed; cbn [kill_loop].
  - apply preserves_ret.
  - apply preserves_bind; [apply preserves_kill_body|]. intros b. apply IH.
Qed.

Lemma preserves_poll cmds finish : preserves P (poll env cmds finish).
Proof using Hsteps.
  revert finish. induction cmds as [|v rest IH]; intros finish; cbn [poll].
  - apply preserves_ret.
  - apply preserves_bind; [apply preserves_Lock|]. intros _.
    apply preserves_bind; [apply preserves_exited|]. intros gone.
    apply preserves_bind; [apply preserves_Unlock|]. intros _. apply IH.
Qed.

Lemma preserves_wait_loop fuel cmds retryCnt :
  preserves P (wait_loop env fuel cmds retryCnt).
Proof using Hsteps.
  revert retryCnt. induction fuel as [|fuel IH]; intros retryCnt; cbn [wait_loop].
  - by intros w Hw.
  - apply preserves_bind; [apply (step_emit Hsteps)|]. intros _.
    apply preserves_bind; [apply preserves_poll|]. intros finish.
    destruct finish; [apply preserves_ret|].
    destruct (retryCnt + 1 >? retryMax)%Z; [apply preserves_ret|apply IH].
Qed.

(** [kill] keeps what its steps keep. *)
Lemma preserves_kill fuel sig : preserves P (kill env fuel sig).
Proof using Hsteps.
  unfold kill, waitForProcess.
  apply preserves_bind; [apply preserves_get_d|]. intros dk.
  apply preserves_bind; [apply preserves_kill_loop|]. intros killed.
  apply preserves_bind.
  - apply preserves_bind; [apply (step_emit Hsteps)|]. intros _.
    apply preserves_wait_loop.
  - intros [e|]; [apply (step_emit Hsteps)|apply preserves_ret].
Qed.

(** The methods that run docker commands keep what [execDockerCommand] and
    the log keep. *)
Context (Hexec : ∀ args, preserves P (execDockerCommand env args)).

Lemma preserves_setupBin : preserves P (setupBin env).
Proof using Hsteps Hexec.
  unfold setupBin.
  repeat first [ apply Hexec | preserves_step ].
Qed.

Lemma preserves_clean : preserves P (clean env).
Proof using Hsteps Hexec.
  unfold clean.
  repeat first [ apply Hexec | preserves_step ].
Qed.

Lemma preserves_runBuild (be : @buildEntry Any Step) : preserves P (runBuild env be).
Proof using Hsteps Hexec.
  unfold runBuild.
  repeat first [ apply Hexec | preserves_step ].
Qed.

End Preserves.

Section Registry.
Context {Any Step : Type} `{L : @GoLib Any Step} (env : Env).
Implicit Types w : World.

Lemma registry_ok_steps : closed_under_steps registry_ok.
Proof.
  split.
  - by intros e w Hw.
  - by intros b w Hw.
  - intros c cmd w [Hnd Hvalid]. split; [done|].
    cbn. by rewrite length_insert.
  - intros target argv w [Hnd Hvalid]. split; [done|].
    cbn. rewrite length_app. eapply Forall_impl; [exact Hvalid|].
    cbn. intros; lia.
Qed.

Lemma registry_ok_execDockerCommand args : preserves registry_ok (execDockerCommand env args).
Proof.
  intros w [Hnd Hvalid]. rewrite execDockerCommand_spec. cbn.
  split; cbn.
  - apply NoDup_app. split; [done|]. split; [|apply NoDup_singleton].
    intros v Hv ->%list_elem_of_singleton.
    rewrite Forall_forall in Hvalid. apply Hvalid in Hv. lia.
  - rewrite length_app. cbn. apply Forall_app. split.
    + eapply Forall_impl; [exact Hvalid|]. cbn. intros; lia.
    + constructor; [lia|done].
Qed.

(** The registry of a new launcher is empty, and every method keeps it a
    list of distinct commands of the heap. *)
Lemma registry_ok_New (option : @Option Any Step) : registry_ok (New env option).2.
Proof.
  unfold New. destruct (createBuildEntry option). split; cbn; constructor.
Qed.

Lemma registry_ok_kept w (be : @buildEntry Any Step) fuel sig :
  registry_ok w →
  registry_ok (final (setupBin env w)) ∧
  registry_ok (final (runBuild env be w)) ∧
  registry_ok (final (kill env fuel sig w)) ∧
  registry_ok (final (clean env w)).
Proof.
  intros Hw. split_and!.
  - by apply (preserves_setupBin env _ registry_ok_steps registry_ok_execDockerCommand).
  - by apply (preserves_runBuild env _ registry_ok_steps registry_ok_execDockerCommand).
  - by apply (preserves_kill env _ registry_ok_steps).
  - by apply (preserves_clean env _ registry_ok_steps registry_ok_execDockerCommand).
Qed.

Lemma prefix_steps (l : list CmdPtr) :
  closed_under_steps (fun w => l `prefix_of` commands (d w)).
Proof. split; by intros ?? w Hw || by intros ? w Hw. Qed.

(** No method removes a command from the registry. *)
Lemma registry_never_shrinks w (be : @buildEntry Any Step) fuel sig :
  commands (d w) `prefix_of` commands (d (final (setupBin env w))) ∧
  commands (d w) `prefix_of` commands (d (final (runBuild env be w))) ∧
  commands (d w) `prefix_of` commands (d (final (kill env fuel sig w))) ∧
  commands (d w) `prefix_of` commands (d (final (clean env w))).
Proof.
  assert (Hexec : ∀ args,
            preserves (fun w' => commands (d w) `prefix_of` commands (d w'))
              (execDockerCommand env args)).
  { intros args w' Hw'. rewrite execDockerCommand_spec. cbn.
    by apply prefix_app_r. }
  split_and!.
  - by apply (preserves_setupBin env _ (prefix_steps _) Hexec).
  - by apply (preserves_runBuild env _ (prefix_steps _) Hexec).
  - by apply (preserves_kill env _ (prefix_steps _)).
  - by apply (preserves_clean env _ (prefix_steps _) Hexec).
Qed.

(** [execDockerCommand] never takes the mutex: it appends with the mutex as
    it found it. *)
Lemma execDockerCommand_unlocked args w :
  appends_locked (mutex (d w)) (new_events (execDockerCommand env args) w)
    = mutex (d w) ∧
  locks (new_events (execDockerCommand env args) w) = 0%nat.
Proof.
  unfold new_events. rewrite execDockerCommand_spec. cbn [final trace].
  rewrite drop_app_length. unfold docker_command_events, locks.
  destruct (flagVerbose (d w)), (run_error _), (mutex (d w)); by cbn.
Qed.

End Registry.


(** ** The runner on concrete worlds *)

Lemma runBuild_arguments_witness :
  ∃ configJSON,
    json_Marshal (GoLib := GoRef.lib) (l_buildEntry Sample.launcher) = inl configJSON ∧
    In (EvCommand 1%nat
          ["docker"; "container"; "run"; "--privileged"; "-m512m"; "--rm";
           "-v"; "/home/dev/src/:/sd/workspace/src/screwdriver.cd/sd-local/local-build";
           "-v"; "/tmp/artifacts/:/sd/workspace/artifacts";
           "-v"; "SD_LAUNCH_BIN:/opt/sd";
           "-v"; "SD_LAUNCH_HAB:/opt/sd/hab";
           "node:12"; "/opt/sd/local_run.sh"; configJSON; "main";
           "http://api.example.com/v4"; "http://store.example.com/v1";
           "/sd/workspace/artifacts/builds.log"])
       (new_events (runBuild (H := GoRef.lib) Sample.os (l_buildEntry Sample.launcher))
          Sample.world0).
Proof.
  destruct (json_Marshal (GoLib := GoRef.lib) (l_buildEntry Sample.launcher))
    as [configJSON|e] eqn:Hj; [|vm_compute in Hj; discriminate Hj].
  exists configJSON. split; [reflexivity|].
  destruct (runBuild_arguments (L := GoRef.lib) Sample.os
              (l_buildEntry Sample.launcher) Sample.world0
              (default_layer (L := GoRef.lib) Sample.options) [] configJSON
              1000 "exit status 0" "")
    as [r Hr]; [vm_compute; reflexivity | exact Hj | vm_compute; reflexivity |].
  rewrite Hr. apply in_app_iff. right. apply in_app_iff. right. left.
  reflexivity.
Defined.

Lemma Run_docker_not_found_witness :
  let l := (New (H := GoRef.lib) Sample.os_without_docker Sample.options).1 in
  let w := (New (H := GoRef.lib) Sample.os_without_docker Sample.options).2 in
  final (Run Sample.os_without_docker l w) = w ∧ commands (d w) = [].
Proof.
  destruct (Run_docker_not_found (L := GoRef.lib) Sample.os_without_docker
              ("exec: " +:+ GoRef.quote +:+ "docker" +:+ GoRef.quote +:+
               ": executable file not found in $PATH"))
    as [_ Hnew]; [reflexivity|].
  destruct (Hnew Sample.options) as (Hfinal & Hcmds & _).
  split; [exact Hfinal | exact Hcmds].
Defined.

Lemma kill_spares_exited_witness :
  In (EvProcessState InKill 0%nat true)
     (new_events (kill Sample.os 10 Sample.SIGTERM) Sample.world_created_running) ∧
  ∀ e, In e (new_events (kill Sample.os 10 Sample.SIGTERM) Sample.world_created_running) →
       ¬ attempt_on 0%nat e.
Proof.
  split; [vm_compute; auto|].
  apply (kill_spares_exited Sample.os 10 Sample.SIGTERM Sample.world_created_running 0%nat).
  - apply (bool_decide_unpack _). vm_compute. exact I.
  - vm_compute. auto.
Defined.

Lemma kill_failed_delivery_witness :
  In (EvLog WarnLevel "failed to stop process: os: process already finished")
     (new_events (kill Sample.os_refusing 10 Sample.SIGTERM) Sample.world_running) ∧
  ∀ cmds, In (EvWait cmds) (new_events (kill Sample.os_refusing 10 Sample.SIGTERM) Sample.world_running) →
          ¬ In 0%nat cmds.
Proof.
  destruct (kill_failed_delivery Sample.os_refusing 10 Sample.SIGTERM
              Sample.world_running 0%nat "os: process already finished")
    as (Hlog & _ & Hwait).
  - apply (bool_decide_unpack _). vm_compute. exact I.
  - vm_compute. auto 10.
  - split; [exact Hlog | exact Hwait].
Defined.

Lemma kill_unmappable_signal_witness :
  signum (SyscallSignal 100) = (-1)%Z ∧
  ∃ c err,
    In (EvKill 0%nat c ["sudo"; "kill"; "--1"; "4242"])
       (new_events (kill Sample.os 10 (SyscallSignal 100)) Sample.world_sudo_running) ∧
    In (EvRun c err)
       (new_events (kill Sample.os 10 (SyscallSignal 100)) Sample.world_sudo_running).
Proof.
  destruct (kill_unmappable_signal Sample.os 10 (SyscallSignal 100)
              Sample.world_sudo_running)
    as (Hnum & _ & Hkill & _).
  - right. done.
  - reflexivity.
  - apply (bool_decide_unpack _). vm_compute. exact I.
  - split; [exact Hnum|].
    destruct (Hkill 0%nat Sample.build_running 4242%Z) as (c & err & Hk & Hr & _).
    + reflexivity.
    + reflexivity.
    + vm_compute. auto.
    + exists c, err. split; [exact Hk | exact Hr].
Defined.

(** C9 as it is written fails: with sudo and a signal of number 100, [kill]
    makes the elevated kill with [--1] for the running build, and waits for
    it. *)
Lemma kill_unmappable_not_skipped :
  ¬ unmappable_skipped
      (new_events (kill Sample.os 10 (SyscallSignal 100)) Sample.world_sudo_running)
      (commands (d Sample.world_sudo_running)).
Proof.
  intros Hclaim.
  destruct (Hclaim 0%nat) as (Hno & Hwait & _); [by left|].
  apply (Hno 1%nat ["sudo"; "kill"; "--1"; "4242"]).
  vm_compute. auto.
Qed.

(** C4. With one exited command in the registry, [kill] returns with the
    mutex locked: its loop has locked once and never unlocked. *)
Theorem kill_leaves_mutex_locked :
  ∃ w',
    kill Sample.os 10 Sample.SIGTERM Sample.world_created = Returns tt w' ∧
    mutex (d w') = true ∧
    locks (trace w') = 1%nat ∧ unlocks (trace w') = 0%nat.
Proof. eexists. split; [vm_compute; reflexivity|]. split_and!; vm_compute; reflexivity. Qed.

(** C1. With an exited command before the running build in the registry,
    [kill] never returns, whatever the fuel: the second turn of its loop is
    parked in [Lock], and the build is sent no signal. *)
Theorem kill_blocks_after_exited (fuel : nat) :
  ∃ w',
    kill Sample.os fuel Sample.SIGTERM Sample.world_created_running = Blocks w' ∧
    trace w' = [EvLock; EvProcessState InKill 0%nat true].
Proof. eexists. split; vm_compute; reflexivity. Qed.

(** C5. The first command of [setupBin] is appended to the registry with
    the mutex free, and [setupBin] as a whole never locks it. *)
Theorem setupBin_appends_without_lock :
  new_events (execDockerCommand Sample.os ["volume"; "create"; "--name"; "SD_LAUNCH_BIN"])
    Sample.world0 =
    [EvCommand 0%nat ["docker"; "volume"; "create"; "--name"; "SD_LAUNCH_BIN"];
     EvAppend 0%nat; EvRun 0%nat None] ∧
  appends_locked false (new_events (setupBin Sample.os) Sample.world0) = false ∧
  locks (new_events (setupBin Sample.os) Sample.world0) = 0%nat.
Proof. split_and!; vm_compute; reflexivity. Qed.

(** The two scenarios of the bounded wait, the mutex being free: the build is
    signalled and never seen to exit, and [kill] returns after ten ticks
    with the timeout warning; the build is seen to exit during the wait, and
    [kill] returns at the next tick without a warning. *)
Example kill_times_out :
  ∃ w',
    kill Sample.os 10 Sample.SIGTERM Sample.world_running = Returns tt w' ∧
    mutex (d w') = false ∧
    ticks (trace w') = 10%nat ∧
    last (trace w') =
      Some (EvLog WarnLevel
              "waited 10 seconds and could not confirm that the process was dead").
Proof. eexists. split; [vm_compute; reflexivity|]. split_and!; vm_compute; reflexivity. Qed.

Example kill_confirms_exit :
  ∃ w',
    kill Sample.os_exiting 10 Sample.SIGTERM Sample.world_running = Returns tt w' ∧
    mutex (d w') = false ∧
    ticks (trace w') = 4%nat ∧
    last (trace w') = Some EvUnlock.
Proof. eexists. split; [vm_compute; reflexivity|]. split_and!; vm_compute; reflexivity. Qed.

(** * Further properties of the package *)

(** ** The assembler *)

Section AssemblerMore.
Context {Any Step : Type} `{L : @GoLib Any Step}.
Implicit Types option : @Option Any Step.

Lemma copyInto_union (env src : EnvVar) : copyInto env src = src ∪ env.
Proof.
  apply map_eq. intros k. rewrite copyInto_lookup, lookup_union.
  by destruct (src !! k), (env !! k).
Qed.


(** X2. The entry made by [createBuildEntry] has one environment map, and
    its keys are the four default keys together with the keys of the job and
    of the override: whatever the option, the four default keys are defined
    and no other key is invented. *)
Theorem createBuildEntry_env_keys option :
  ∃ env,
    Environment (createBuildEntry option).1 = [env] ∧
    dom env =
      {["SD_TOKEN"; "SD_ARTIFACTS_DIR"; "SD_API_URL"; "SD_STORE_URL"]} ∪
      dom (Job_Environment (OptJob option)) ∪ dom (OptionEnv option).
Proof.
  unfold createBuildEntry, mergeEnv. cbn [fst Environment]. eexists.
  split; [reflexivity|].
  rewrite !copyInto_union, !dom_union_L. unfold defaultEnv.
  rewrite !dom_insert_L, dom_empty_L.
  apply set_eq. intros k. rewrite !elem_of_union, elem_of_empty. tauto.
Qed.

End AssemblerMore.

(** X3. [signum] returns the number of a [syscall.Signal] between 0 and 64
    and -1 for anything else: its result is -1 or a number below 65, and it
    differs from -1 exactly for those signals. *)
Theorem signum_range sig :
  (-1 <= signum sig < 65) ∧
  (signum sig ≠ -1 ↔ ∃ n, sig = SyscallSignal n ∧ 0 <= n < 65) ∧
  (∀ n, 0 <= n < 65 → signum (SyscallSignal n) = n).
Proof.
  split; [|split].
  - destruct sig as [i|name]; cbn; [|lia].
    destruct (Z.ltb_spec i 0), (Z.geb_spec i 65); cbn; lia.
  - destruct sig as [i|name]; cbn.
    + destruct (Z.ltb_spec i 0), (Z.geb_spec i 65); cbn; split.
      all: try (intros ?; lia).
      all: try (intros (n & Heq & ?); injection Heq as ->; lia).
      intros _. exists i. split; [done|lia].
    + split; [done|]. by intros (n & ? & _).
  - intros n Hn. cbn. destruct (Z.ltb_spec n 0), (Z.geb_spec n 65); cbn; lia.
Qed.

(** ** Docker commands *)

Section Commands.
Context {Any Step : Type} `{L : @GoLib Any Step} (env : Env).
Implicit Types w : World.
Implicit Types be : @buildEntry Any Step.

Lemma docker_argv_with_command dk c args :
  docker_argv (with_command dk c) args = docker_argv dk args.
Proof. reflexivity. Qed.

Lemma run_ok_exited dk args r :
  run_error r = None → ProcessState (docker_command dk args r) ≠ None.
Proof. by destruct r. Qed.

(** X4. [execDockerCommand] always returns, with the error of the run as
    it is. It makes one command, whose argv is the arguments after [docker],
    and after [sudo] before that when the runner uses sudo; the command is
    registered before it is run, also when the run then fails; it stays
    without a process when it could not be started, and has its exit
    recorded otherwise. The mutex is left as it was. *)
Theorem execDockerCommand_registers args w :
  let c := length (heap w) in
  let r := runs env c (docker_argv (d w) args) in
  ∃ w' cmd pre post,
    execDockerCommand env args w = Returns (run_error r) w' ∧
    commands (d w') = commands (d w) ++ [c] ∧
    mutex (d w') = mutex (d w) ∧
    heap w' = heap w ++ [cmd] ∧
    Args cmd = (if useSudo (d w) then ["sudo"] else []) ++ "docker" :: args ∧
    Process cmd =
      match r with Finishes pid _ _ _ => Some pid | StartFails _ => None end ∧
    ProcessState cmd =
      match r with Finishes _ state _ _ => Some state | StartFails _ => None end ∧
    new_events (execDockerCommand env args) w =
      pre ++ [EvAppend c; EvRun c (run_error r)] ++ post ∧
    (∀ e, In e pre → ∀ c' err, e ≠ EvRun c' err).
Proof.
  intros c r. unfold new_events. rewrite execDockerCommand_spec. fold c r.
  eexists _, _,
    ([EvCommand c (docker_argv (d w) args)] ++
     (if flagVerbose (d w)
      then [EvLog InfoLevel ("$ " +:+ strings_Join (docker_argv (d w) args) " ")]
      else [])), _.
  split; [reflexivity|]. cbn [d heap trace commands mutex with_command].
  split_and!; try reflexivity.
  - cbn [final trace]. rewrite drop_app_length.
    unfold docker_command_events. fold c r. rewrite <- !app_assoc. reflexivity.
  - intros e He c' err. destruct (flagVerbose (d w)); cbn in He; intuition (subst; done).
Qed.


Ltac docker_step :=
  rewrite execDockerCommand_spec;
  cbn [d heap trace commands mutex with_command volume habVolume setupImage
       setupImageVersion useSudo flagVerbose];
  rewrite ?docker_argv_with_command, ?length_app; cbn [length];
  rewrite <- ?Nat.add_assoc; cbn [Nat.add].

Lemma setupBin_first_failure w i e :
  (∀ j, (j < i)%nat →
        step_error env (d w) (length (heap w)) (setupBin_steps (d w)) j = None) →
  step_error env (d w) (length (heap w)) (setupBin_steps (d w)) i = Some e →
  ∃ w' args prefix,
    setupBin_steps (d w) !! i = Some (args, prefix) ∧
    setupBin env w = Returns (Some (prefix +:+ e)) w' ∧
    commands (d w') = commands (d w) ++ seq (length (heap w)) (S i) ∧
    length (heap w') = (length (heap w) + S i)%nat.
Proof.
  intros Hbefore Hfail.
  destruct i as [|[|[|[|i]]]]; [| | | |by cbn in Hfail].
  all: repeat match goal with
       | H : ∀ j, (j < S ?n)%nat → _ |- _ =>
           pose proof (H n (Nat.lt_succ_diag_r n));
           assert (∀ j, (j < n)%nat →
                     step_error env (d w) (length (heap w)) (setupBin_steps (d w)) j = None)
             by (intros j Hj; apply H; lia);
           clear H
       end.
  all: unfold step_error in *; cbn [setupBin_steps lookup list_lookup] in *.
  all: rewrite ?Nat.add_0_r in *.
  all: eexists _, _, _; split; [reflexivity|].
  all: unfold setupBin, bind, get_d.
  all: repeat (docker_step;
               match goal with
               | H : run_error ?r = _ |- context [run_error ?r] => rewrite H
               end).
  all: unfold ret; split; [reflexivity|].
  all: cbn [d heap commands with_command]; rewrite ?length_app; cbn [length seq];
    split; [|lia].
  all: rewrite <- ?app_assoc; cbn [app]; rewrite ?Nat.add_1_r; try reflexivity.
  all: repeat f_equal; lia.
Qed.

Lemma setupBin_all_succeed w :
  (∀ j, step_error env (d w) (length (heap w)) (setupBin_steps (d w)) j = None) →
  ∃ w',
    setupBin env w = Returns None w' ∧
    commands (d w') = commands (d w) ++ seq (length (heap w)) 4 ∧
    (∃ made, heap w' = heap w ++ made ∧
             map Args made =
               map (fun s => docker_argv (d w) s.1) (setupBin_steps (d w)) ∧
             Forall (fun cmd => ProcessState cmd ≠ None) made) ∧
    d w' = {| volume := volume (d w); habVolume := habVolume (d w);
              setupImage := setupImage (d w);
              setupImageVersion := setupImageVersion (d w);
              useSudo := useSudo (d w); commands := commands (d w');
              mutex := mutex (d w); flagVerbose := flagVerbose (d w) |}.
Proof.
  intros Hall.
  pose proof (Hall 0%nat) as H0. pose proof (Hall 1%nat) as H1.
  pose proof (Hall 2%nat) as H2. pose proof (Hall 3%nat) as H3.
  unfold step_error in H0, H1, H2, H3.
  cbn [setupBin_steps lookup list_lookup] in H0, H1, H2, H3.
  rewrite ?Nat.add_0_r in *.
  unfold setupBin, bind, get_d.
  repeat (docker_step;
          match goal with
          | H : run_error ?r = _ |- context [run_error ?r] => rewrite H
          end).
  eexists. split; [reflexivity|].
  cbn [d heap commands with_command mutex volume habVolume setupImage
       setupImageVersion useSudo flagVerbose].
  split_and!.
  - rewrite <- !app_assoc. cbn [app seq]. repeat f_equal; lia.
  - eexists. rewrite <- !app_assoc. split; [reflexivity|]. split; [reflexivity|].
    repeat constructor; by apply run_ok_exited.
  - reflexivity.
Qed.

(** X6. [setupBin] returns nil exactly when its four commands all return
    nil; the four are then registered, in the order volume, hab volume, pull
    of the launcher image, run of the launcher container. *)
Theorem setupBin_succeeds_iff w :
  (∀ j, step_error env (d w) (length (heap w)) (setupBin_steps (d w)) j = None) ↔
  ∃ w',
    setupBin env w = Returns None w' ∧
    commands (d w') = commands (d w) ++ seq (length (heap w)) 4 ∧
    ∃ made, heap w' = heap w ++ made ∧
            map Args made =
              map (fun s => docker_argv (d w) s.1) (setupBin_steps (d w)).
Proof.
  split.
  - intros Hall.
    destruct (setupBin_all_succeed w Hall) as (w' & H1 & H2 & (made & H3 & H4 & _) & _).
    exists w'. split; [done|]. split; [done|]. by exists made.
  - intros (w' & Hret & _) j.
    destruct (step_error env (d w) (length (heap w)) (setupBin_steps (d w)) j)
      as [e|] eqn:Hj; [|done].
    exfalso. revert j e Hj.
    assert (Hfirst : ∀ i j e, (j <= i)%nat →
              step_error env (d w) (length (heap w)) (setupBin_steps (d w)) j = Some e →
              False).
    { induction i as [|i IH]; intros j e Hle Hj.
      - assert (j = 0%nat) as -> by lia.
        destruct (setupBin_first_failure w 0 e) as (w1 & args & pre & _ & Hr & _);
          [intros; lia|done|]. congruence.
      - destruct (decide (j = S i)) as [->|Hne]; [|apply (IH j e); [lia|done]].
        destruct (setupBin_first_failure w (S i) e) as (w1 & args & pre & _ & Hr & _);
          [|done|congruence].
        intros k Hk.
        destruct (step_error env (d w) (length (heap w)) (setupBin_steps (d w)) k)
          as [e'|] eqn:He'; [|done].
        exfalso. apply (IH k e'); [lia|done]. }
    intros j e Hj. exact (Hfirst j j e (le_n j) Hj).
Qed.

(** X7. [setupBin] stops at its first command that fails: it returns the
    error of that command behind the message of its step, and the commands
    after it are not made. *)
Theorem setupBin_stops_at_first_failure w i e :
  (∀ j, (j < i)%nat →
        step_error env (d w) (length (heap w)) (setupBin_steps (d w)) j = None) →
  step_error env (d w) (length (heap w)) (setupBin_steps (d w)) i = Some e →
  ∃ w' args prefix,
    setupBin_steps (d w) !! i = Some (args, prefix) ∧
    setupBin env w = Returns (Some (prefix +:+ e)) w' ∧
    commands (d w') = commands (d w) ++ seq (length (heap w)) (S i) ∧
    length (heap w') = (length (heap w) + S i)%nat.
Proof. apply setupBin_first_failure. Qed.


(** X8. [clean] always returns and always attempts both removals, the
    second also when the first fails; it logs one warning for each removal
    that fails, and nothing else at that level. *)
Theorem clean_attempts_both w :
  let c := length (heap w) in
  let rm1 := docker_argv (d w) ["volume"; "rm"; "--force"; volume (d w)] in
  let rm2 := docker_argv (d w) ["volume"; "rm"; "--force"; habVolume (d w)] in
  ∃ w',
    clean env w = Returns tt w' ∧
    commands (d w') = commands (d w) ++ [c; S c] ∧
    (∃ made, heap w' = heap w ++ made ∧ map Args made = [rm1; rm2]) ∧
    In (EvRun c (run_error (runs env c rm1))) (new_events (clean env) w) ∧
    In (EvRun (S c) (run_error (runs env (S c) rm2))) (new_events (clean env) w) ∧
    (∀ msg, In (EvLog WarnLevel msg) (new_events (clean env) w) ↔
       (∃ e, run_error (runs env c rm1) = Some e ∧
             msg = "failed to remove volume: " +:+ e) ∨
       (∃ e, run_error (runs env (S c) rm2) = Some e ∧
             msg = "failed to remove hab volume: " +:+ e)).
Proof.
  intros c rm1 rm2. unfold new_events, clean, bind, get_d.
  docker_step. fold c rm1.
  destruct (run_error (runs env c rm1)) as [e1|] eqn:H1; unfold emit, ret;
    docker_step; rewrite ?Nat.add_1_r; fold c rm2;
    destruct (run_error (runs env (S c) rm2)) as [e2|] eqn:H2;
    (eexists; split; [reflexivity|]);
    cbn [d heap trace commands with_command final];
    rewrite <- ?app_assoc, ?drop_app_length;
    (split; [reflexivity|]);
    (split; [eexists; split; [reflexivity|reflexivity]|]);
    unfold docker_command_events; rewrite ?H1, ?H2;
    cbn [with_command flagVerbose useSudo].
  all: split; [rewrite !in_app_iff; cbn; tauto|].
  all: split; [rewrite !in_app_iff; cbn; tauto|].
  all: intros msg; rewrite !in_app_iff; destruct (flagVerbose (d w)); cbn.
  all: split;
    [ intros Hin; repeat destruct Hin as [Hin|Hin]; try done;
      try (injection Hin as <-; eauto)
    | intros [(e & He & ->)|(e & He & ->)]; try done;
      try (injection He as <-; tauto) ].
Qed.

Lemma runBuild_cases be w (environment : EnvVar) others :
  Environment be = environment :: others →
  let c := length (heap w) in
  let pull := docker_argv (d w) ["pull"; Image be] in
  ∃ err w',
    runBuild env be w = Returns err w' ∧
    match json_Marshal be with
    | inr e => err = Some e ∧ w' = w
    | inl configJSON =>
        let run := docker_argv (d w)
                     (spec_run_arguments (d w) be environment configJSON) in
        mutex (d w') = mutex (d w) ∧
        match run_error (runs env c pull) with
        | Some e =>
            err = Some ("failed to pull user image " +:+ e) ∧
            commands (d w') = commands (d w) ++ [c] ∧
            ∃ made, heap w' = heap w ++ made ∧ map Args made = [pull]
        | None =>
            err = match run_error (runs env (S c) run) with
                  | Some e => Some ("failed to run build container: " +:+ e)
                  | None => None
                  end ∧
            commands (d w') = commands (d w) ++ [c; S c] ∧
            ∃ made, heap w' = heap w ++ made ∧ map Args made = [pull; run]
        end
    end.
Proof.
  intros He c pull. unfold runBuild, bind, get_d. rewrite He.
  destruct (json_Marshal be) as [configJSON|e]; [|by eexists _, _].
  unfold emit. docker_step. fold c pull.
  destruct (run_error (runs env c pull)) as [e|];
    [eexists _, _; split; [reflexivity|]|].
  { cbn [d heap commands mutex with_command].
    split_and!; [done|done|done|]. eexists. split; reflexivity. }
  docker_step. rewrite ?Nat.add_1_r. fold c.
  match goal with
  | |- context [docker_argv _ ?args] =>
      match args with
      | context [spec_run_arguments] => fail 1
      | _ => assert (args = spec_run_arguments (d w) be environment configJSON) as ->
      end
  end.
  { unfold spec_run_arguments, scmHost, orgRepo, LogFile.
    destruct (UsePrivileged be), (decide (MemoryLimit be = "")) as [Hm|Hm];
      case_bool_decide; try contradiction; reflexivity. }
  cbn zeta.
  destruct (run_error (runs env (S c) _)) as [e|];
    (eexists _, _; split; [reflexivity|]);
    cbn [d heap commands mutex with_command];
    rewrite <- !app_assoc; (split_and!; [done|done|done|]);
    (eexists; split; reflexivity).
Qed.

(** X9. The outcomes of [runBuild]. On an entry without an environment it
    panics before anything is made. Otherwise it returns: the error of the
    serialization comes back as it is and nothing is made; the error of the
    pull comes back behind its message (which has no colon) and the
    container is not run; otherwise the pull and the run are registered, in
    this order, and the error of the run comes back behind its message. *)
Theorem runBuild_outcomes be w :
  let c := length (heap w) in
  let pull := docker_argv (d w) ["pull"; Image be] in
  match Environment be with
  | [] => runBuild env be w = Panics "index out of range [0] with length 0" w
  | environment :: _ =>
    ∃ err w',
      runBuild env be w = Returns err w' ∧
      match json_Marshal be with
      | inr e => err = Some e ∧ w' = w
      | inl configJSON =>
          let run := docker_argv (d w)
                       (spec_run_arguments (d w) be environment configJSON) in
          match run_error (runs env c pull) with
          | Some e =>
              err = Some ("failed to pull user image " +:+ e) ∧
              commands (d w') = commands (d w) ++ [c] ∧
              ∃ made, heap w' = heap w ++ made ∧ map Args made = [pull]
          | None =>
              err = match run_error (runs env (S c) run) with
                    | Some e => Some ("failed to run build container: " +:+ e)
                    | None => None
                    end ∧
              commands (d w') = commands (d w) ++ [c; S c] ∧
              ∃ made, heap w' = heap w ++ made ∧ map Args made = [pull; run]
          end
      end
  end.
Proof.
  intros c pull. destruct (Environment be) as [|environment others] eqn:He.
  { unfold runBuild, bind, get_d. by rewrite He. }
  destruct (runBuild_cases be w environment others He) as (err & w' & Hret & Hcase).
  exists err, w'. split; [done|].
  destruct (json_Marshal be) as [configJSON|e]; [|done].
  cbn zeta in Hcase. destruct Hcase as [_ Hcase]. exact Hcase.
Qed.


(** The world after a [Run] in which every command succeeds. *)
Lemma Run_success_world be w (environment : EnvVar) others path configJSON :
  lookPath env "docker" = inl path →
  (∀ c argv, run_error (runs env c argv) = None) →
  Environment be = environment :: others →
  json_Marshal be = inl configJSON →
  ∃ w' made,
    Run env {| l_buildEntry := be; l_runner := docker_runner env |} w
      = Returns None w' ∧
    commands (d w') = commands (d w) ++ seq (length (heap w)) 6 ∧
    mutex (d w') = mutex (d w) ∧
    heap w' = heap w ++ made ∧
    map Args made =
      map (docker_argv (d w))
        (map fst (setupBin_steps (d w)) ++
         [["pull"; Image be];
          spec_run_arguments (d w) be environment configJSON]) ∧
    ∃ first rest, made = first :: rest ∧ ProcessState first ≠ None.
Proof.
  intros Hlook Hruns Henv Hjson. unfold Run. rewrite Hlook.
  cbn [l_runner l_buildEntry docker_runner r_setupBin r_runBuild]. unfold bind.
  destruct (setupBin_all_succeed w)
    as (w1 & -> & Hc1 & (made1 & Hh1 & Ha1 & Hex1) & Hd1).
  { intros j. unfold step_error. destruct (_ !! j) as [[args pre]|]; [apply Hruns|done]. }
  destruct (runBuild_cases be w1 environment others Henv) as (err & w2 & -> & Hcase).
  rewrite Hjson in Hcase. cbn zeta in Hcase. rewrite !Hruns in Hcase.
  destruct Hcase as (Hm2 & -> & Hc2 & made2 & Hh2 & Ha2).
  exists w2, (made1 ++ made2). split; [done|].
  assert (Hlen : length made1 = 4%nat).
  { apply (f_equal length) in Ha1. by rewrite !length_map in Ha1. }
  assert (Hargv : ∀ args, docker_argv (d w1) args = docker_argv (d w) args).
  { intros args. rewrite Hd1. reflexivity. }
  assert (Hspec : spec_run_arguments (d w1) be environment configJSON
                  = spec_run_arguments (d w) be environment configJSON).
  { rewrite Hd1. reflexivity. }
  split_and!.
  - rewrite Hc2, Hc1, Hh1, length_app, Hlen, <- app_assoc. f_equal.
    cbn [seq app]. repeat f_equal; lia.
  - rewrite Hm2, Hd1. reflexivity.
  - by rewrite Hh2, Hh1, <- app_assoc.
  - rewrite map_app, Ha1, Ha2, !Hargv, Hspec, map_app, map_map. reflexivity.
  - destruct made1 as [|first rest]; [done|]. exists first, (rest ++ made2).
    split; [done|]. by apply Forall_cons in Hex1 as [? _].
Qed.

(** X11. A [Run] in which [docker] is found, every command succeeds and the
    entry can be serialized returns nil, and has registered six commands: the
    four of [setupBin], the pull of the build image and the run of the build
    container, in this order. *)
Theorem Run_success be w (environment : EnvVar) others path configJSON :
  lookPath env "docker" = inl path →
  (∀ c argv, run_error (runs env c argv) = None) →
  Environment be = environment :: others →
  json_Marshal be = inl configJSON →
  ∃ w',
    Run env {| l_buildEntry := be; l_runner := docker_runner env |} w
      = Returns None w' ∧
    commands (d w') = commands (d w) ++ seq (length (heap w)) 6 ∧
    ∃ made,
      heap w' = heap w ++ made ∧
      map Args made =
        map (docker_argv (d w))
          (map fst (setupBin_steps (d w)) ++
           [["pull"; Image be];
            spec_run_arguments (d w) be environment configJSON]).
Proof.
  intros Hlook Hruns Henv Hjson.
  destruct (Run_success_world be w environment others path configJSON)
    as (w' & made & Hret & Hc & _ & Hh & Ha & _); try done.
  exists w'. split; [done|]. split; [done|]. by exists made.
Qed.

(** X12. When a command of [setupBin] fails, [Run] returns its error behind
    the messages of [Run] and of the step, and stops there: the build image
    is not pulled. *)
Theorem Run_setup_failure be w path i e :
  lookPath env "docker" = inl path →
  (∀ j, (j < i)%nat →
        step_error env (d w) (length (heap w)) (setupBin_steps (d w)) j = None) →
  step_error env (d w) (length (heap w)) (setupBin_steps (d w)) i = Some e →
  ∃ w' args prefix,
    setupBin_steps (d w) !! i = Some (args, prefix) ∧
    Run env {| l_buildEntry := be; l_runner := docker_runner env |} w
      = Returns (Some ("failed to setup build: " +:+ prefix +:+ e)) w' ∧
    commands (d w') = commands (d w) ++ seq (length (heap w)) (S i) ∧
    length (heap w') = (length (heap w) + S i)%nat.
Proof.
  intros Hlook Hbefore Hfail.
  destruct (setupBin_first_failure w i e Hbefore Hfail)
    as (w' & args & prefix & Hstep & Hret & Hc & Hh).
  exists w', args, prefix. split; [done|]. split; [|done].
  unfold Run. rewrite Hlook.
  cbn [l_runner l_buildEntry docker_runner r_setupBin r_runBuild]. unfold bind.
  by rewrite Hret.
Qed.

(** X13. When [setupBin] succeeds and the pull of the build image fails,
    [Run] returns the error of the pull behind the messages of [Run] and of
    [runBuild], with five commands registered: the build container is not
    run. *)
Theorem Run_pull_failure be w (environment : EnvVar) others path configJSON e :
  lookPath env "docker" = inl path →
  (∀ j, step_error env (d w) (length (heap w)) (setupBin_steps (d w)) j = None) →
  Environment be = environment :: others →
  json_Marshal be = inl configJSON →
  run_error (runs env (length (heap w) + 4)%nat
               (docker_argv (d w) ["pull"; Image be])) = Some e →
  ∃ w',
    Run env {| l_buildEntry := be; l_runner := docker_runner env |} w
      = Returns (Some ("failed to run build: " +:+
                       "failed to pull user image " +:+ e)) w' ∧
    commands (d w') = commands (d w) ++ seq (length (heap w)) 5 ∧
    length (heap w') = (length (heap w) + 5)%nat.
Proof.
  intros Hlook Hsetup Henv Hjson Hpull. unfold Run. rewrite Hlook.
  cbn [l_runner l_buildEntry docker_runner r_setupBin r_runBuild]. unfold bind.
  destruct (setupBin_all_succeed w Hsetup)
    as (w1 & -> & Hc1 & (made1 & Hh1 & Ha1 & _) & Hd1).
  assert (Hlen : length made1 = 4%nat).
  { apply (f_equal length) in Ha1. by rewrite !length_map in Ha1. }
  destruct (runBuild_cases be w1 environment others Henv) as (err & w2 & -> & Hcase).
  rewrite Hjson in Hcase. cbn zeta in Hcase.
  assert (Hargv : docker_argv (d w1) ["pull"; Image be]
                  = docker_argv (d w) ["pull"; Image be]).
  { rewrite Hd1. reflexivity. }
  rewrite Hargv, Hh1, length_app, Hlen, Hpull in Hcase.
  destruct Hcase as (_ & -> & Hc2 & made2 & Hh2 & Ha2).
  exists w2. split; [reflexivity|]. split.
  - rewrite Hc2, Hc1, <- app_assoc. f_equal. cbn [seq app]. repeat f_equal; lia.
  - apply (f_equal length) in Ha2. rewrite length_map in Ha2. cbn in Ha2.
    rewrite Hh2, !length_app, Hlen, Ha2. lia.
Qed.

End Commands.

(** ** The bounded wait *)

Lemma locks_app a b : locks (a ++ b) = (locks a + locks b)%nat.
Proof. unfold locks. by rewrite filter_app, length_app. Qed.
Lemma unlocks_app a b : unlocks (a ++ b) = (unlocks a + unlocks b)%nat.
Proof. unfold unlocks. by rewrite filter_app, length_app. Qed.

Section Waiting.
Context (env : Env).
Implicit Types w : World.

(** One look at every command, the mutex free: the result, and what is
    counted in the events. *)
Lemma poll_counts cmds finish w :
  mutex (d w) = false →
  Forall (fun v => (v < length (heap w))%nat) cmds →
  ∃ b w' new,
    poll env cmds finish w = Returns b w' ∧
    mutex (d w') = false ∧ heap w' = heap w ∧
    trace w' = trace w ++ new ∧
    ticks new = 0%nat ∧
    locks new = length cmds ∧ unlocks new = length cmds ∧
    (finish = false → b = false) ∧
    (b = false → finish = false ∨ ∃ v, In v cmds ∧ In (EvProcessState InWait v false) new) ∧
    (Forall (is_exited (heap w)) cmds → b = finish) ∧
    (Exists (never_exits env (heap w)) cmds → b = false).
Proof.
  revert finish w. induction cmds as [|v rest IH]; intros finish w Hm Hvalid.
  { exists finish, w, []. rewrite app_nil_r. split_and!; try done.
    - by left.
    - by intros ?%Exists_nil. }
  apply Forall_cons in Hvalid as [Hv Hvalid].
  apply lookup_lt_is_Some in Hv as [cmd Hv].
  destruct w as [dk hp tr]. cbn [d heap trace] in *.
  cbn [poll]. unfold bind, Lock, Unlock, exited, deref, emit, set_mutex, bind, ret, now.
  wsimpl. rewrite Hm. wsimpl. rewrite Hv. wsimpl.
  set (gone := match ProcessState cmd with
               | Some _ => true
               | None => exitedBy env (length (tr ++ [EvLock])) v
               end).
  match goal with |- context [poll env rest ?f ?w1] =>
    destruct (IH f w1) as (b & w' & new & Hret & Hm' & Hheap & Htr & Hticks & Hl & Hu & Hmono & Hf & Hall & Hnever);
      [done|done|] end.
  cbn [d heap trace] in *.
  eexists b, w', ([EvLock; EvProcessState InWait v gone; EvUnlock] ++ new).
  split; [exact Hret|]. split; [exact Hm'|]. split; [exact Hheap|].
  split; [rewrite Htr; by rewrite <- !app_assoc|].
  split; [by rewrite ticks_app, Hticks|].
  split; [rewrite locks_app, Hl; reflexivity|].
  split; [rewrite unlocks_app, Hu; reflexivity|].
  split_and!.
  - intros ->. apply Hmono. by destruct gone.
  - intros Hb. destruct (Hf Hb) as [Hfin|(u & Hu' & Hin)].
    + destruct gone eqn:Hg; [by left|]. right. exists v. split; [by left|].
      apply in_app_iff. left. cbn. tauto.
    + right. exists u. split; [by right|]. apply in_app_iff. by right.
  - intros [(cmd' & st & Hv' & Hst) Hrest]%Forall_cons.
    rewrite (Hall Hrest). subst gone.
    assert (cmd' = cmd) as -> by congruence. by rewrite Hst.
  - intros [(cmd' & Hv' & Hst & Hnev)|Hrest]%Exists_cons.
    + assert (cmd' = cmd) as -> by congruence. subst gone.
      apply Hmono. by rewrite Hst, Hnev.
    + by apply Hnever.
Qed.

(** The loop of [waitForProcess] from [retryCnt] on, the mutex free. *)
Lemma wait_loop_counts fuel cmds (retryCnt : Z) w :
  (0 <= retryCnt <= retryMax)%Z →
  (Z.to_nat (retryMax + 1 - retryCnt) <= fuel)%nat →
  mutex (d w) = false →
  Forall (fun v => (v < length (heap w))%nat) cmds →
  ∃ err w' new,
    wait_loop env fuel cmds retryCnt w = Returns err w' ∧
    mutex (d w') = false ∧ heap w' = heap w ∧
    trace w' = trace w ++ new ∧
    (1 <= ticks new <= Z.to_nat (retryMax + 1 - retryCnt))%nat ∧
    locks new = (ticks new * length cmds)%nat ∧
    unlocks new = (ticks new * length cmds)%nat ∧
    (err = None ∨
     err = Some timeout_error ∧
     ticks new = Z.to_nat (retryMax + 1 - retryCnt) ∧
     ∃ v, In v cmds ∧ In (EvProcessState InWait v false) new) ∧
    (Forall (is_exited (heap w)) cmds → err = None ∧ ticks new = 1%nat) ∧
    (Exists (never_exits env (heap w)) cmds → err = Some timeout_error).
Proof.
  unfold retryMax.
  revert retryCnt w. induction fuel as [|fuel IH]; intros n w Hn Hfuel Hm Hvalid.
  { lia. }
  cbn [wait_loop]. unfold bind, emit.
  match goal with |- context [poll env cmds true ?w1] =>
    destruct (poll_counts cmds true w1)
      as (b & w1' & new & Hret & Hm' & Hheap & Htr & Hticks & Hl & Hu & _ & Hf & Hall & Hnever);
      [done|done|] end.
  rewrite Hret. cbn [trace heap] in *.
  assert (Hone : ticks (EvTick :: new) = 1%nat) by (by rewrite ticks_tick, Hticks).
  assert (Hl1 : locks (EvTick :: new) = length cmds) by (exact Hl).
  assert (Hu1 : unlocks (EvTick :: new) = length cmds) by (exact Hu).
  destruct b.
  { exists None, w1', (EvTick :: new). unfold ret. split; [done|]. split; [done|].
    split; [done|].
    split; [rewrite Htr; by rewrite <- app_assoc|].
    rewrite Hone, Hl1, Hu1.
    split; [lia|]. split; [lia|]. split; [lia|]. split; [by left|].
    split; [done|]. intros Hex. by specialize (Hnever Hex). }
  destruct (Hf eq_refl) as [?|Hread]; [done|].
  unfold retryMax. destruct (n + 1 >? 9)%Z eqn:Hcmp.
  { apply Z.gtb_lt in Hcmp. assert (n = 9%Z) as -> by lia.
    eexists _, w1', (EvTick :: new). unfold ret. split; [reflexivity|]. split; [done|].
    split; [done|].
    split; [rewrite Htr; by rewrite <- app_assoc|].
    rewrite Hone, Hl1, Hu1.
    split; [cbn; lia|]. split; [lia|]. split; [lia|]. split; [|split; [|done]].
    - right. split; [done|]. split; [done|].
      destruct Hread as (v & Hv & Hin). exists v. split; [done|]. by right.
    - intros Hex. by specialize (Hall Hex). }
  assert (Hle : (n + 1 <= 9)%Z).
  { destruct (Z.gtb_spec (n + 1) 9); [done|lia]. }
  destruct (IH (n + 1)%Z w1')
    as (err & w2 & new' & Hret' & Hm'' & Hheap' & Htr' & Hle' & Hl' & Hu' & Herr & Hall' & Hnever');
    [lia|lia|done|by rewrite Hheap|].
  exists err, w2, ((EvTick :: new) ++ new'). split; [done|]. split; [done|].
  split; [by rewrite Hheap', Hheap|].
  split; [rewrite Htr', Htr; by rewrite <- !app_assoc|].
  rewrite ticks_app, locks_app, unlocks_app, Hone, Hl1, Hu1, Hl', Hu'.
  rewrite Hheap in Hall', Hnever'.
  split; [lia|]. split; [lia|]. split; [lia|]. split; [|split].
  - destruct Herr as [->|(-> & Heq & v & Hv & Hin)]; [by left|right].
    split; [done|]. split; [lia|]. exists v. split; [done|].
    apply in_app_iff. by right.
  - intros Hex. by specialize (Hall Hex).
  - exact Hnever'.
Qed.

(** [waitForProcess] with the mutex free and enough fuel. *)
Lemma waitForProcess_counts fuel cmds w :
  (10 <= fuel)%nat →
  mutex (d w) = false →
  Forall (fun v => (v < length (heap w))%nat) cmds →
  ∃ err w',
    waitForProcess env fuel cmds w = Returns err w' ∧
    mutex (d w') = false ∧
    (1 <= ticks (new_events (waitForProcess env fuel cmds) w) <= 10)%nat ∧
    locks (new_events (waitForProcess env fuel cmds) w) =
      (ticks (new_events (waitForProcess env fuel cmds) w) * length cmds)%nat ∧
    unlocks (new_events (waitForProcess env fuel cmds) w) =
      (ticks (new_events (waitForProcess env fuel cmds) w) * length cmds)%nat ∧
    (err = None ∨
     err = Some timeout_error ∧
     ticks (new_events (waitForProcess env fuel cmds) w) = 10%nat ∧
     ∃ v, In v cmds ∧
          In (EvProcessState InWait v false)
             (new_events (waitForProcess env fuel cmds) w)) ∧
    (Forall (is_exited (heap w)) cmds →
     err = None ∧ ticks (new_events (waitForProcess env fuel cmds) w) = 1%nat) ∧
    (Exists (never_exits env (heap w)) cmds → err = Some timeout_error).
Proof.
  intros Hfuel Hm Hvalid. unfold new_events, waitForProcess, bind, emit.
  match goal with |- context [wait_loop env fuel cmds 0%Z ?w1] =>
    destruct (wait_loop_counts fuel cmds 0%Z w1)
      as (err & w' & new & Hret & Hm' & Hheap & Htr & Hle & Hl & Hu & Herr & Hall & Hnever);
      [unfold retryMax; lia|unfold retryMax; cbn; lia|done|done|] end.
  exists err, w'. rewrite Hret. cbn [final]. cbn [trace heap] in *.
  rewrite Htr, <- app_assoc, drop_app_length.
  change ([EvWait cmds] ++ new) with (EvWait cmds :: new).
  assert (Ht : ticks (EvWait cmds :: new) = ticks new) by (by rewrite ticks_other).
  assert (Hl' : locks (EvWait cmds :: new) = locks new) by reflexivity.
  assert (Hu' : unlocks (EvWait cmds :: new) = unlocks new) by reflexivity.
  rewrite Ht, Hl', Hu'. unfold retryMax in *. cbn in Hle, Herr.
  split; [done|]. split; [done|]. split; [lia|]. split; [done|]. split; [done|].
  split; [|split; [done|done]].
  destruct Herr as [->|(-> & Heq & v & Hv & Hin)]; [by left|right].
  split; [done|]. split; [done|]. exists v. split; [done|]. by right.
Qed.


Lemma is_exited_valid hp v : is_exited hp v → (v < length hp)%nat.
Proof. intros (cmd & st & Hv & _). by eapply lookup_lt_Some. Qed.

(** X14. With the mutex free, [waitForProcess] returns within ten ticks,
    with the mutex free: nil, or the timeout error, and this only after the
    tenth tick and a look that found a command not exited. At every tick it
    locks and unlocks the mutex once for each command. *)
Theorem waitForProcess_bounded fuel cmds w :
  (10 <= fuel)%nat →
  mutex (d w) = false →
  Forall (fun v => (v < length (heap w))%nat) cmds →
  let new := new_events (waitForProcess env fuel cmds) w in
  ∃ err w',
    waitForProcess env fuel cmds w = Returns err w' ∧
    mutex (d w') = false ∧
    (1 <= ticks new <= 10)%nat ∧
    locks new = (ticks new * length cmds)%nat ∧
    unlocks new = (ticks new * length cmds)%nat ∧
    (err = None ∨
     err = Some timeout_error ∧ ticks new = 10%nat ∧
     ∃ v, In v cmds ∧ In (EvProcessState InWait v false) new).
Proof.
  intros Hfuel Hm Hvalid new.
  destruct (waitForProcess_counts fuel cmds w Hfuel Hm Hvalid)
    as (err & w' & Hret & Hm' & Ht & Hl & Hu & Herr & _).
  by exists err, w'.
Qed.

(** X15. When the exit of every command is already recorded,
    [waitForProcess] returns nil at its first tick; so it does for no
    command at all. *)
Theorem waitForProcess_all_exited fuel cmds w :
  (10 <= fuel)%nat →
  mutex (d w) = false →
  Forall (is_exited (heap w)) cmds →
  ∃ w',
    waitForProcess env fuel cmds w = Returns None w' ∧
    ticks (new_events (waitForProcess env fuel cmds) w) = 1%nat.
Proof.
  intros Hfuel Hm Hall.
  destruct (waitForProcess_counts fuel cmds w Hfuel Hm)
    as (err & w' & Hret & _ & _ & _ & _ & _ & Hex & _).
  { eapply Forall_impl; [exact Hall|]. apply is_exited_valid. }
  destruct (Hex Hall) as [-> Ht]. by exists w'.
Qed.

(** X16. When one of the commands is never seen to exit, [waitForProcess]
    returns the timeout error, after exactly ten ticks. *)
Theorem waitForProcess_never_exits fuel cmds w :
  (10 <= fuel)%nat →
  mutex (d w) = false →
  Forall (fun v => (v < length (heap w))%nat) cmds →
  Exists (never_exits env (heap w)) cmds →
  ∃ w',
    waitForProcess env fuel cmds w = Returns (Some timeout_error) w' ∧
    ticks (new_events (waitForProcess env fuel cmds) w) = 10%nat.
Proof.
  intros Hfuel Hm Hvalid Hnever.
  destruct (waitForProcess_counts fuel cmds w Hfuel Hm Hvalid)
    as (err & w' & Hret & _ & _ & _ & _ & Herr & _ & Hn).
  rewrite (Hn Hnever) in *. exists w'. split; [done|].
  by destruct Herr as [?|(_ & ? & _)].
Qed.

(** X17. Called with the mutex held and a command to wait for,
    [waitForProcess] never returns: its first look is parked in [Lock],
    right after the first tick. *)
Theorem waitForProcess_blocks_when_locked fuel v rest w :
  mutex (d w) = true →
  waitForProcess env (S fuel) (v :: rest) w =
    Blocks {| d := d w; heap := heap w;
              trace := trace w ++ [EvWait (v :: rest); EvTick] |}.
Proof.
  intros Hm. unfold waitForProcess, bind, emit. cbn [wait_loop poll].
  unfold bind, emit, Lock. cbn [d heap trace]. rewrite Hm.
  by rewrite <- app_assoc.
Qed.

End Waiting.

(** ** Termination of the registered commands *)

Lemma visit_kill_event sudo sig hp u seg b e :
  visit_events sudo sig hp u seg b → In e seg → kill_event sudo e.
Proof.
  intros Hvis Hin. destruct Hvis; in_cases Hin; subst e; cbn; done.
Qed.

Lemma loop_kill_event sudo sig hp cmds new appended e :
  loop_events sudo sig hp cmds new appended → In e new → kill_event sudo e.
Proof.
  induction 1 as [|hp u rest seg b made more killed Hvis Hloop IH]; intros Hin.
  { destruct Hin. }
  apply in_app_iff in Hin as [Hin|Hin]; [by eapply visit_kill_event|by apply IH].
Qed.

Lemma visit_appended sudo sig hp u seg b :
  visit_events sudo sig hp u seg b → b = true → In (EvDelivered u None) seg.
Proof.
  intros Hvis Hb. destruct Hvis; try done.
  all: destruct err; [done|]; cbn; tauto.
Qed.

Lemma loop_appended sudo sig hp cmds new appended :
  loop_events sudo sig hp cmds new appended →
  sublist appended cmds ∧ ∀ v, In v appended → In (EvDelivered v None) new.
Proof.
  induction 1 as [|hp u rest seg b made more killed Hvis Hloop [IHs IHd]].
  { split; [apply sublist_nil_l|by intros ? []]. }
  split.
  - destruct b; cbn [app]; [by apply sublist_skip|by apply sublist_cons].
  - intros v [Hv|Hv]%in_app_iff; apply in_app_iff.
    + destruct b; [|done]. destruct Hv as [<-|[]]. left. by eapply visit_appended.
    + right. by apply IHd.
Qed.

Lemma never_exits_app env hp made v :
  never_exits env hp v → never_exits env (hp ++ made) v.
Proof.
  intros (cmd & Hv & Hst & Hnev). exists cmd. split; [|done].
  by apply lookup_app_l_Some.
Qed.

Section Killing.
Context (env : Env).
Implicit Types w : World.

(** X18. [kill] sends its signals one way only: without sudo by
    [Process.Signal] and never by a command, with sudo by a command that it
    runs and never by [Process.Signal]. It makes no docker command and
    appends nothing to the registry. *)
Theorem kill_delivery_strategy fuel sig w e :
  In e (new_events (kill env fuel sig) w) → kill_event (useSudo (d w)) e.
Proof.
  intros Hin.
  destruct (kill_shape env fuel sig w) as (loop_new & appended & rest & Hnew & Hloop & Hrest).
  rewrite Hnew in Hin. apply in_app_iff in Hin as [Hin|Hin].
  - by eapply loop_kill_event.
  - destruct Hrest as [->|(quiet & -> & Hq)]; [destruct Hin|].
    destruct Hin as [<-|Hin]; [done|].
    rewrite Forall_forall in Hq. apply list_elem_of_In, Hq in Hin.
    destruct e as [| | | | | | |[] ? ?| | | | |]; done.
Qed.

(** X19. [kill] leaves the registry as it found it, however it ends: the
    commands it makes for the elevated kill are not registered, and the
    commands it has signalled stay registered. *)
Theorem kill_keeps_registry fuel sig w :
  commands (d (final (kill env fuel sig w))) = commands (d w) ∧
  useSudo (d (final (kill env fuel sig w))) = useSudo (d w).
Proof.
  apply (preserves_kill env
           (fun w' => commands (d w') = commands (d w) ∧ useSudo (d w') = useSudo (d w)));
    [|done].
  split; by intros ?? w' Hw' || by intros ? w' Hw'.
Qed.

(** X20. The commands [kill] waits for are commands of the registry, in the
    order of the registry, and they are exactly the commands whose signal
    was delivered without an error. *)
Theorem kill_wait_set fuel sig w cmds :
  In (EvWait cmds) (new_events (kill env fuel sig) w) →
  sublist cmds (commands (d w)) ∧
  ∀ v, In v cmds ↔ In (EvDelivered v None) (new_events (kill env fuel sig) w).
Proof.
  intros Hin.
  destruct (kill_shape env fuel sig w) as (loop_new & appended & rest & Hnew & Hloop & Hrest).
  rewrite Hnew in *.
  apply in_app_iff in Hin as [Hin|Hin].
  { by apply (loop_no_wait _ _ _ _ _ _ cmds) in Hloop. }
  destruct (after_loop_quiet _ _ 0%nat _ Hrest Hin) as [_ Heq].
  rewrite (Heq cmds eq_refl).
  destruct (loop_appended _ _ _ _ _ _ Hloop) as [Hsub Hdel].
  split; [done|]. intros v. split.
  - intros Hv. apply in_app_iff. left. by apply Hdel.
  - intros [Hd|Hd]%in_app_iff.
    + by eapply loop_delivered.
    + by destruct (after_loop_quiet _ _ v _ Hrest Hd) as [Hturn _].
Qed.

(** X21. With sudo and a signal of number [n] between 0 and 64, the command
    run for a started command that is found not exited is
    [sudo kill -n pid], and its result is the result of the delivery. *)
Theorem kill_mappable_signal fuel n w v cmd pid :
  0 <= n < 65 →
  useSudo (d w) = true →
  heap w !! v = Some cmd → Process cmd = Some pid →
  In (EvProcessState InKill v false) (new_events (kill env fuel (SyscallSignal n)) w) →
  ∃ c err,
    In (EvKill v c ["sudo"; "kill"; "-" +:+ itoa n; itoa pid])
       (new_events (kill env fuel (SyscallSignal n)) w) ∧
    In (EvRun c err) (new_events (kill env fuel (SyscallSignal n)) w) ∧
    In (EvDelivered v err) (new_events (kill env fuel (SyscallSignal n)) w).
Proof.
  intros Hn Hsudo Hv Hp Hin.
  destruct (kill_shape env fuel (SyscallSignal n) w)
    as (loop_new & appended & rest & Hnew & Hloop & Hrest).
  rewrite Hnew in *. rewrite Hsudo in Hloop.
  apply in_app_iff in Hin as [Hin|Hin].
  2:{ by destruct (after_loop_quiet _ _ v _ Hrest Hin) as [Hturn _]. }
  destruct (loop_sudo_kill _ _ _ _ _ _ _ _ Hloop Hv Hp Hin) as (c & e & H1 & H2 & H3).
  assert (Hsig : signum (SyscallSignal n) = n).
  { cbn. destruct (Z.ltb_spec n 0); [lia|]. destruct (Z.geb_spec n 65); [lia|done]. }
  unfold sudo_kill_argv in H1. rewrite Hsig in H1.
  exists c, e. split_and!; apply in_app_iff; by left.
Qed.

(** X22. With an empty registry [kill] sends nothing and locks nothing: it
    waits for no command and returns at the first tick, also when the mutex
    is held. *)
Theorem kill_empty_registry fuel sig w :
  commands (d w) = [] →
  kill env (S fuel) sig w =
    Returns tt {| d := d w; heap := heap w;
                  trace := trace w ++ [EvWait []; EvTick] |}.
Proof.
  intros Hc. unfold kill, bind, get_d. rewrite Hc. cbn.
  unfold waitForProcess, bind, emit. cbn. by rewrite <- app_assoc.
Qed.

Lemma kill_first_exited_blocks fuel sig w v v' rest cmd state :
  commands (d w) = v :: v' :: rest →
  mutex (d w) = false →
  heap w !! v = Some cmd →
  ProcessState cmd = Some state →
  ∃ w',
    kill env fuel sig w = Blocks w' ∧
    trace w' = trace w ++ [EvLock; EvProcessState InKill v true].
Proof.
  intros Hc Hm Hv Hst. unfold kill, bind, get_d. rewrite Hc. cbn [kill_loop].
  unfold bind.
  destruct (kill_body_exited_keeps_lock env sig v w cmd state Hm Hv Hst)
    as (w1 & -> & Hm1 & Htr).
  rewrite (kill_body_blocks env sig v' w1 Hm1). by exists w1.
Qed.

(** X23. When the first command of the registry has exited and the
    registry holds another command, [kill] never returns, whatever the
    signal, the other commands and the bound of the wait: the second turn of
    its loop is parked in [Lock], and nothing has been signalled. *)
Theorem kill_blocks_after_first_exited fuel sig w v v' rest cmd state :
  commands (d w) = v :: v' :: rest →
  mutex (d w) = false →
  heap w !! v = Some cmd →
  ProcessState cmd = Some state →
  ∃ w',
    kill env fuel sig w = Blocks w' ∧
    trace w' = trace w ++ [EvLock; EvProcessState InKill v true].
Proof. apply kill_first_exited_blocks. Qed.

Lemma kill_body_exited_world sig v w cmd state :
  mutex (d w) = false →
  heap w !! v = Some cmd →
  ProcessState cmd = Some state →
  ∃ w',
    kill_body env sig v w = Returns false w' ∧
    mutex (d w') = true ∧ commands (d w') = commands (d w) ∧
    heap w' = heap w ∧
    trace w' = trace w ++ [EvLock; EvProcessState InKill v true].
Proof.
  intros Hm Hv Hstate. destruct w as [dk hp tr]. cbn [d heap trace] in *.
  unfold kill_body, bind, get_d, Lock, Unlock, exited, deref, emit, set_mutex,
    bind, ret, now.
  wsimpl. rewrite Hm. wsimpl. rewrite Hv. wsimpl. rewrite Hstate. wsimpl.
  eexists. split; [reflexivity|]. wsimpl. by rewrite <- app_assoc.
Qed.

(** X24. With one command in the registry, and this command exited, a
    first [kill] returns and leaves the mutex locked; every later [kill], with
    any signal, never returns. *)
Theorem kill_twice fuel sig w v cmd state :
  commands (d w) = [v] →
  mutex (d w) = false →
  heap w !! v = Some cmd →
  ProcessState cmd = Some state →
  ∃ w',
    kill env (S fuel) sig w = Returns tt w' ∧
    mutex (d w') = true ∧
    ∀ fuel' sig', kill env fuel' sig' w' = Blocks w'.
Proof.
  intros Hc Hm Hv Hst. unfold kill at 1, bind, get_d. rewrite Hc. cbn [kill_loop].
  unfold bind.
  destruct (kill_body_exited_world sig v w cmd state Hm Hv Hst)
    as (w1 & -> & Hm1 & Hc1 & Hh1 & Htr).
  unfold ret, waitForProcess, bind, emit. cbn.
  eexists. split; [reflexivity|]. split; [done|].
  intros fuel' sig'. unfold kill, bind, get_d. cbn [d commands].
  rewrite Hc1, Hc. cbn [kill_loop]. unfold bind.
  by rewrite kill_body_blocks.
Qed.

Lemma kill_body_not_started sig v w cmd :
  mutex (d w) = false →
  heap w !! v = Some cmd →
  Process cmd = None →
  ProcessState cmd = None →
  exitedBy env (S (length (trace w))) v = false →
  ∃ w',
    kill_body env sig v w =
      Panics "invalid memory address or nil pointer dereference" w' ∧
    trace w' = trace w ++ [EvLock; EvProcessState InKill v false; EvUnlock].
Proof.
  intros Hm Hv Hp Hstate Hex. destruct w as [dk hp tr]. cbn [d heap trace] in *.
  unfold kill_body, bind, get_d, Lock, Unlock, exited, deref, emit, set_mutex,
    bind, ret, now.
  wsimpl. rewrite Hm. wsimpl. rewrite Hv. wsimpl. rewrite Hstate.
  rewrite length_app. cbn [length]. rewrite Nat.add_1_r, Hex. wsimpl.
  destruct (useSudo dk);
    unfold Process_Pid, Process_Signal, Process_Pid, panic, bind, deref; wsimpl;
    rewrite Hv; wsimpl; rewrite Hp; wsimpl;
    (eexists; split; [reflexivity|]); wsimpl; by rewrite <- !app_assoc.
Qed.

(** X25. A docker command that could not be started is registered all the
    same, without a process; a [kill] that comes to it dereferences the nil
    process and panics. *)
Theorem kill_after_failed_start fuel sig args w e :
  commands (d w) = [] →
  mutex (d w) = false →
  runs env (length (heap w)) (docker_argv (d w) args) = StartFails e →
  (∀ t, exitedBy env t (length (heap w)) = false) →
  ∃ w1 w2,
    execDockerCommand env args w = Returns (Some e) w1 ∧
    commands (d w1) = [length (heap w)] ∧
    kill env fuel sig w1 =
      Panics "invalid memory address or nil pointer dereference" w2.
Proof.
  intros Hc Hm Hrun Hnever. rewrite execDockerCommand_spec, Hrun.
  set (w1 := {| d := with_command (d w) (length (heap w));
                heap := heap w ++ [docker_command (d w) args (StartFails e)];
                trace := trace w ++
                         docker_command_events (d w) (length (heap w)) args
                           (StartFails e) |}).
  destruct (kill_body_not_started sig (length (heap w)) w1
              (docker_command (d w) args (StartFails e)))
    as (w2 & Hbody & _); try done.
  { cbn. apply lookup_new. }
  exists w1, w2. split; [reflexivity|].
  cbn [w1 d commands with_command]. rewrite Hc. split; [reflexivity|].
  unfold kill, bind, get_d. cbn [w1 d commands with_command]. rewrite Hc.
  cbn [app kill_loop]. unfold bind. fold w1. by rewrite Hbody.
Qed.

(** A turn on a started command that is never seen to exit returns with the
    mutex free. *)
Lemma kill_body_running sig v w :
  mutex (d w) = false →
  is_started (heap w) v →
  never_exits env (heap w) v →
  ∃ b w',
    kill_body env sig v w = Returns b w' ∧
    mutex (d w') = false ∧
    ∃ made, heap w' = heap w ++ made.
Proof.
  intros Hm (cmd & pid & Hv & Hp) (cmd' & Hv' & Hst & Hnev).
  assert (cmd' = cmd) as -> by congruence.
  destruct w as [dk hp tr]. cbn [d heap trace] in *.
  unfold kill_body, bind, get_d, Lock, Unlock, exited, deref, emit, set_mutex,
    bind, ret, now.
  wsimpl. rewrite Hm. wsimpl. rewrite Hv. wsimpl. rewrite Hst, Hnev. wsimpl.
  destruct (useSudo dk);
    unfold Process_Pid, Process_Signal, Process_Pid, execCommand, Cmd_Run, panic,
      bind, deref, emit, store, ret, now; wsimpl; rewrite Hv; wsimpl; rewrite Hp;
    wsimpl.
  - heap_steps.
    destruct (runs env (length hp) _) as [e|pid0 st [e|] out]; wsimpl; heap_steps;
      (eexists _, _; split; [reflexivity|]; wsimpl; split; [done|]; by eexists).
  - destruct (signals env _ pid sig) as [e|]; wsimpl;
      (eexists _, _; split; [reflexivity|]; wsimpl; split; [done|];
       exists []; by rewrite app_nil_r).
Qed.

Lemma kill_loop_running sig cmds killed w :
  mutex (d w) = false →
  Forall (is_started (heap w)) cmds →
  Forall (never_exits env (heap w)) cmds →
  ∃ killed' w' made,
    kill_loop env sig cmds killed w = Returns killed' w' ∧
    mutex (d w') = false ∧
    heap w' = heap w ++ made ∧
    ∀ v, In v killed' → In v killed ∨ In v cmds.
Proof.
  revert killed w. induction cmds as [|v rest IH]; intros killed w Hm Hst Hnev.
  { exists killed, w, []. rewrite app_nil_r. split_and!; try done. by left. }
  apply Forall_cons in Hst as [Hv Hst]. apply Forall_cons in Hnev as [Hn Hnev].
  destruct (kill_body_running sig v w Hm Hv Hn) as (b & w1 & Hbody & Hm1 & made & Hh).
  cbn [kill_loop]. unfold bind. rewrite Hbody.
  destruct (IH (if b then killed ++ [v] else killed) w1)
    as (killed' & w' & made' & Hloop & Hm' & Hh' & Hin); [done| | |].
  { rewrite Hh. eapply Forall_impl; [exact Hst|]. intros u. apply is_started_app. }
  { rewrite Hh. eapply Forall_impl; [exact Hnev|]. intros u. apply never_exits_app. }
  exists killed', w', (made ++ made'). split; [done|]. split; [done|].
  split; [by rewrite Hh', Hh, app_assoc|].
  intros u Hu. destruct (Hin u Hu) as [Hk|Hr]; [|right; by right].
  destruct b; [|by left].
  apply in_app_iff in Hk as [Hk|[<-|[]]]; [by left|right; by left].
Qed.

(** X26. When every command of the registry has been started and none is
    ever seen to exit, [kill] returns, with the mutex free, after waiting
    for the commands it could signal: at once when there is none, and with
    the timeout warning as its last event otherwise. *)
Theorem kill_running_returns fuel sig w :
  (10 <= fuel)%nat →
  mutex (d w) = false →
  Forall (is_started (heap w)) (commands (d w)) →
  Forall (never_exits env (heap w)) (commands (d w)) →
  ∃ w' killed,
    kill env fuel sig w = Returns tt w' ∧
    mutex (d w') = false ∧
    In (EvWait killed) (new_events (kill env fuel sig) w) ∧
    last (trace w') =
      Some (match killed with
            | [] => EvTick
            | _ :: _ => EvLog WarnLevel timeout_error
            end).
Proof.
  intros Hfuel Hm Hst Hnev. unfold new_events, kill, bind, get_d.
  destruct (kill_loop_shape env sig (commands (d w)) [] w)
    as (loop_new & appended & Htr & _ & _).
  destruct (kill_loop_running sig (commands (d w)) [] w Hm Hst Hnev)
    as (killed & w1 & made & Hloop & Hm1 & Hh1 & Hin).
  rewrite Hloop in *. cbn [final] in Htr.
  assert (Hvalid : Forall (fun v => (v < length (heap w1))%nat) killed).
  { apply Forall_forall. intros v Hv%list_elem_of_In.
    destruct (Hin v Hv) as [[]|Hc]. rewrite Hh1, length_app.
    rewrite Forall_forall in Hst. apply list_elem_of_In, Hst, is_started_valid in Hc.
    lia. }
  unfold waitForProcess, bind, emit.
  match goal with |- context [wait_loop env fuel killed 0 ?w2] =>
    destruct (wait_loop_counts env fuel killed 0 w2)
      as (err & w3 & new & Hret & Hm3 & _ & Htr3 & Ht & _ & _ & _ & Hall & Hnever);
      [unfold retryMax; lia|unfold retryMax; cbn; lia|done|done|] end.
  rewrite Hret. cbn [trace heap] in *.
  destruct killed as [|v killed].
  - destruct Hall as [-> Hone]; [constructor|].
    exists w3, []. unfold ret. cbn [final]. split; [done|]. split; [done|].
    rewrite Htr3, Htr, <- !app_assoc, drop_app_length. split.
    + apply in_app_iff. right. by left.
    + destruct fuel as [|fuel]; [lia|]. cbn in Hret. unfold bind, emit, ret in Hret.
      cbn in Hret. injection Hret as <-. cbn [trace] in Htr3.
      apply app_inv_head in Htr3 as <-. by rewrite !app_assoc, last_snoc.
  - rewrite Hnever.
    2:{ apply Exists_cons. left. rewrite Hh1. apply never_exits_app.
        destruct (Hin v) as [[]|Hc]; [by left|].
        rewrite Forall_forall in Hnev. by apply Hnev, list_elem_of_In. }
    eexists _, (v :: killed). unfold emit. cbn [final trace d]. split; [done|].
    split; [done|].
    rewrite Htr3, Htr, <- !app_assoc, drop_app_length. split.
    + apply in_app_iff. right. by left.
    + cbn [trace]. by rewrite !app_assoc, last_snoc.
Qed.

(** A turn of the loop that sees a command exited ends with the mutex
    locked. *)
Lemma kill_body_exited_locks sig v w u :
  In (EvProcessState InKill u true)
     (drop (length (trace w)) (trace (final (kill_body env sig v w)))) →
  mutex (d (final (kill_body env sig v w))) = true.
Proof.
  destruct (kill_body_shape env sig v w) as (seg & b & Htr & Hvis & _).
  rewrite Htr, drop_app_length. intros Hin.
  assert (Hseg : seg = [EvLock; EvProcessState InKill v true]).
  { destruct Hvis; in_cases Hin; done. }
  subst seg. clear Hin Hvis. revert Htr.
  destruct w as [dk hp tr].
  unfold kill_body, bind, get_d, Lock, Unlock, exited, deref, emit, set_mutex,
    bind, ret, now.
  wsimpl.
  destruct (mutex dk) eqn:Hm; wsimpl; [done|].
  destruct (hp !! v) as [cmd|] eqn:Hv; wsimpl.
  2:{ intros Heq%app_inv_head. discriminate Heq. }
  destruct (match ProcessState cmd with Some _ => true | None => _ end); wsimpl;
    [done|].
  destruct (useSudo dk);
    unfold Process_Pid, Process_Signal, Process_Pid, execCommand, Cmd_Run, panic,
      bind, deref, emit, store, ret, now; wsimpl; rewrite Hv; wsimpl;
    (destruct (Process cmd) as [pid|]; wsimpl;
     [|rewrite <- !app_assoc; intros Heq%app_inv_head; discriminate Heq]).
  - heap_steps.
    destruct (runs env (length hp) _) as [e|pid0 st [e|] out]; wsimpl; heap_steps;
      rewrite <- !app_assoc; intros Heq%app_inv_head; discriminate Heq.
  - destruct (signals env _ pid sig) as [e|]; wsimpl;
      rewrite <- !app_assoc; intros Heq%app_inv_head; discriminate Heq.
Qed.

Lemma kill_loop_locked sig cmds killed w :
  mutex (d w) = true →
  mutex (d (final (kill_loop env sig cmds killed w))) = true.
Proof.
  intros Hm. destruct cmds as [|v rest]; [done|].
  cbn [kill_loop]. unfold bind. by rewrite kill_body_blocks.
Qed.

Lemma kill_loop_exited_locks sig cmds killed w u :
  In (EvProcessState InKill u true)
     (drop (length (trace w)) (trace (final (kill_loop env sig cmds killed w)))) →
  mutex (d (final (kill_loop env sig cmds killed w))) = true.
Proof.
  revert killed w. induction cmds as [|v rest IH]; intros killed w.
  { cbn. by rewrite drop_all. }
  pose proof (kill_body_exited_locks sig v w u) as Hbody.
  destruct (kill_body_shape env sig v w) as (seg & b & Htr & _ & _).
  cbn [kill_loop]. unfold bind.
  destruct (kill_body env sig v w) as [a w1|w1|msg w1|w1]; cbn [final] in *;
    try exact Hbody.
  destruct (kill_loop_shape env sig rest (if a then killed ++ [v] else killed) w1)
    as (more & appended & Htr' & _ & _).
  rewrite Htr', Htr, <- app_assoc, drop_app_length.
  intros [Hin|Hin]%in_app_iff.
  - apply kill_loop_locked, Hbody. by rewrite Htr, drop_app_length.
  - apply IH. by rewrite Htr', drop_app_length.
Qed.

Lemma wait_loop_locked fuel cmds retryCnt w :
  mutex (d w) = true →
  mutex (d (final (wait_loop env fuel cmds retryCnt w))) = true.
Proof.
  revert retryCnt w. induction fuel as [|fuel IH]; intros retryCnt w Hm; [done|].
  cbn [wait_loop]. unfold bind, emit.
  destruct cmds as [|v rest]; cbn [poll]; unfold ret, bind, Lock; cbn [d]; [done|].
  by rewrite Hm.
Qed.

(** X27. Once the loop of [kill] has seen a command exited, the mutex is
    never released: however the call ends, by a return, parked in [Lock] or
    by a panic, it ends with the mutex locked. *)
Theorem kill_exited_keeps_mutex fuel sig w v :
  In (EvProcessState InKill v true) (new_events (kill env fuel sig) w) →
  mutex (d (final (kill env fuel sig w))) = true.
Proof.
  unfold new_events, kill, bind, get_d. intros Hin.
  destruct (kill_loop_shape env sig (commands (d w)) [] w)
    as (loop_new & appended & Htr & _ & _).
  pose proof (kill_loop_exited_locks sig (commands (d w)) [] w v) as Hlock.
  destruct (kill_loop env sig (commands (d w)) [] w) as [killed w1|w1|msg w1|w1];
    cbn [final] in *; try (by apply Hlock).
  assert (Hm1 : mutex (d w1) = true).
  { apply Hlock. rewrite Htr, drop_app_length. revert Hin.
    unfold waitForProcess, bind, emit.
    match goal with |- context [wait_loop env fuel killed 0 ?w2] =>
      destruct (wait_loop_shape env fuel killed 0 w2) as (new & Htr' & Hall);
      destruct (wait_loop env fuel killed 0 w2) as [[e|] w3|w3|msg w3|w3] end;
      cbn [final trace] in Htr'; unfold emit, ret; cbn [final trace];
      rewrite Htr', Htr, <- !app_assoc, drop_app_length.
    all: assert (Hq : ¬ In (EvProcessState InKill v true) new)
      by (intros Hq; rewrite Forall_forall in Hall;
          by apply list_elem_of_In, Hall in Hq).
    all: intros Hin; rewrite !in_app_iff in Hin; cbn [In] in Hin.
    all: destruct_or!; done. }
  unfold waitForProcess, bind, emit.
  match goal with |- context [wait_loop env fuel killed 0 ?w2] =>
    pose proof (wait_loop_locked fuel killed 0 w2 Hm1) as Hw;
    destruct (wait_loop env fuel killed 0 w2) as [[e|] w3|w3|msg w3|w3] end;
    exact Hw.
Qed.

End Killing.

Section AfterRun.
Context {Any Step : Type} `{L : @GoLib Any Step} (env : Env).
Implicit Types w : World.
Implicit Types be : @buildEntry Any Step.

(** X28. After a [Run] in which every command has succeeded, started from
    an empty registry with the mutex free, a [Kill] on the same launcher
    never returns: its loop finds the first command exited and keeps the
    mutex, and it stops at the second command, parked in [Lock], having
    signalled nothing. *)
Theorem Kill_after_Run_blocks be w (environment : EnvVar) others path configJSON :
  lookPath env "docker" = inl path →
  (∀ c argv, run_error (runs env c argv) = None) →
  Environment be = environment :: others →
  json_Marshal be = inl configJSON →
  commands (d w) = [] →
  mutex (d w) = false →
  let l := {| l_buildEntry := be; l_runner := docker_runner env |} in
  ∃ w',
    Run env l w = Returns None w' ∧
    ∀ fuel sig, ∃ w'',
      Kill l fuel sig w' = Blocks w'' ∧
      trace w'' =
        trace w' ++ [EvLock; EvProcessState InKill (length (heap w)) true].
Proof.
  intros Hlook Hruns Henv Hjson Hc Hm l.
  destruct (Run_success_world env be w environment others path configJSON)
    as (w' & made & Hret & Hc' & Hm' & Hh & _ & first & rest & -> & Hex); try done.
  exists w'. split; [done|]. intros fuel sig.
  unfold Kill. cbn [l l_runner docker_runner r_kill].
  destruct (ProcessState first) as [state|] eqn:Hst; [|done].
  apply (kill_first_exited_blocks env fuel sig w' (length (heap w))
           (S (length (heap w))) (seq (S (S (length (heap w)))) 4) first state).
  - rewrite Hc', Hc. reflexivity.
  - by rewrite Hm'.
  - rewrite Hh. by apply list_lookup_middle.
  - done.
Qed.

End AfterRun.

(** ** The registry *)

Section RegistryMore.
Context {Any Step : Type} `{L : @GoLib Any Step} (env : Env).
Implicit Types w : World.

(** X29. No method of the runner removes a command from the registry or
    reorders it: after [execDockerCommand], [setupBin], [runBuild], [kill]
    and [clean], however they end, the registry starts with what it was. *)
Theorem registry_only_grows w (be : @buildEntry Any Step) fuel sig args :
  commands (d w) `prefix_of` commands (d (final (execDockerCommand env args w))) ∧
  commands (d w) `prefix_of` commands (d (final (setupBin env w))) ∧
  commands (d w) `prefix_of` commands (d (final (runBuild env be w))) ∧
  commands (d w) `prefix_of` commands (d (final (kill env fuel sig w))) ∧
  commands (d w) `prefix_of` commands (d (final (clean env w))).
Proof.
  split.
  - rewrite execDockerCommand_spec. cbn. by apply prefix_app_r.
  - apply registry_never_shrinks.
Qed.

(** X30. A registry of distinct commands of the heap stays one through
    every method of the runner, however the method ends: no command is
    registered twice and no registered command is missing from the heap. *)
Theorem registry_stays_ok w (be : @buildEntry Any Step) fuel sig :
  registry_ok w →
  registry_ok (final (setupBin env w)) ∧
  registry_ok (final (runBuild env be w)) ∧
  registry_ok (final (kill env fuel sig w)) ∧
  registry_ok (final (clean env w)).
Proof. apply registry_ok_kept. Qed.

End RegistryMore.

(** ** The further properties on concrete worlds *)

Lemma setupBin_stops_at_first_failure_witness :
  ∃ w',
    setupBin Fault.os_pull_denied Fault.world_new =
      Returns (Some "failed to pull launcher image: exit status 1") w' ∧
    commands (d w') = [0; 1; 2]%nat.
Proof.
  destruct (setupBin_stops_at_first_failure Fault.os_pull_denied Fault.world_new
              2 "exit status 1")
    as (w' & args & prefix & Hstep & Hret & Hc & _).
  - intros j Hj. destruct j as [|[|j]]; [reflexivity|reflexivity|lia].
  - reflexivity.
  - vm_compute in Hstep. injection Hstep as <- <-.
    exists w'. split; [exact Hret|exact Hc].
Defined.

Lemma Run_success_witness :
  ∃ w',
    Run Sample.os
      {| l_buildEntry := l_buildEntry Sample.launcher;
         l_runner := docker_runner (H := GoRef.lib) Sample.os |}
      Fault.world_new = Returns None w' ∧
    commands (d w') = [0; 1; 2; 3; 4; 5]%nat.
Proof.
  destruct (json_Marshal (GoLib := GoRef.lib) (l_buildEntry Sample.launcher))
    as [configJSON|e] eqn:Hj; [|vm_compute in Hj; discriminate Hj].
  destruct (Run_success (L := GoRef.lib) Sample.os (l_buildEntry Sample.launcher)
              Fault.world_new (default_layer (L := GoRef.lib) Sample.options) []
              "/usr/bin/docker" configJSON)
    as (w' & Hret & Hc & _).
  - reflexivity.
  - intros c argv. reflexivity.
  - vm_compute. reflexivity.
  - exact Hj.
  - exists w'. split; [exact Hret|exact Hc].
Defined.

Lemma Run_setup_failure_witness :
  ∃ w',
    Run Fault.os_pull_denied
      {| l_buildEntry := l_buildEntry Sample.launcher;
         l_runner := docker_runner (H := GoRef.lib) Fault.os_pull_denied |}
      Fault.world_new =
      Returns (Some "failed to setup build: failed to pull launcher image: exit status 1")
        w' ∧
    commands (d w') = [0; 1; 2]%nat.
Proof.
  destruct (Run_setup_failure (L := GoRef.lib) Fault.os_pull_denied
              (l_buildEntry Sample.launcher) Fault.world_new
              "/usr/bin/docker" 2 "exit status 1")
    as (w' & args & prefix & Hstep & Hret & Hc & _).
  - reflexivity.
  - intros j Hj. destruct j as [|[|j]]; [reflexivity|reflexivity|lia].
  - reflexivity.
  - vm_compute in Hstep. injection Hstep as <- <-.
    exists w'. split; [exact Hret|exact Hc].
Defined.

Lemma Run_pull_failure_witness :
  ∃ w',
    Run Fault.os_image_missing
      {| l_buildEntry := l_buildEntry Sample.launcher;
         l_runner := docker_runner (H := GoRef.lib) Fault.os_image_missing |}
      Fault.world_new =
      Returns (Some "failed to run build: failed to pull user image exit status 1")
        w' ∧
    commands (d w') = [0; 1; 2; 3; 4]%nat.
Proof.
  destruct (json_Marshal (GoLib := GoRef.lib) (l_buildEntry Sample.launcher))
    as [configJSON|e] eqn:Hj; [|vm_compute in Hj; discriminate Hj].
  destruct (Run_pull_failure (L := GoRef.lib) Fault.os_image_missing
              (l_buildEntry Sample.launcher) Fault.world_new
              (default_layer (L := GoRef.lib) Sample.options) []
              "/usr/bin/docker" configJSON "exit status 1")
    as (w' & Hret & Hc & _).
  - reflexivity.
  - intros j. destruct j as [|[|[|[|j]]]]; reflexivity.
  - vm_compute. reflexivity.
  - exact Hj.
  - vm_compute. reflexivity.
  - exists w'. split; [exact Hret|exact Hc].
Defined.

Lemma waitForProcess_bounded_witness :
  ∃ err w',
    waitForProcess Sample.os_exiting 10 [0%nat] Sample.world_running =
      Returns err w' ∧
    mutex (d w') = false.
Proof.
  destruct (waitForProcess_bounded Sample.os_exiting 10 [0%nat] Sample.world_running)
    as (err & w' & Hret & Hm & _).
  - lia.
  - reflexivity.
  - constructor; [cbn; lia|constructor].
  - exists err, w'. split; [exact Hret|exact Hm].
Defined.

Lemma waitForProcess_all_exited_witness :
  ∃ w',
    waitForProcess Sample.os 10 [0%nat] Sample.world_created = Returns None w' ∧
    ticks (new_events (waitForProcess Sample.os 10 [0%nat]) Sample.world_created)
      = 1%nat.
Proof.
  apply (waitForProcess_all_exited Sample.os 10 [0%nat] Sample.world_created).
  - lia.
  - reflexivity.
  - constructor; [|constructor].
    exists Sample.volume_created, "exit status 0". split; reflexivity.
Defined.

Lemma waitForProcess_never_exits_witness :
  ∃ w',
    waitForProcess Sample.os 10 [0%nat] Sample.world_running =
      Returns (Some timeout_error) w' ∧
    ticks (new_events (waitForProcess Sample.os 10 [0%nat]) Sample.world_running)
      = 10%nat.
Proof.
  apply (waitForProcess_never_exits Sample.os 10 [0%nat] Sample.world_running).
  - lia.
  - reflexivity.
  - constructor; [cbn; lia|constructor].
  - constructor. exists Sample.build_running.
    split; [reflexivity|]. split; [reflexivity|]. intros t. reflexivity.
Defined.

Lemma waitForProcess_blocks_when_locked_witness :
  waitForProcess Sample.os 10 [0%nat] Fault.world_locked =
    Blocks {| d := d Fault.world_locked; heap := heap Fault.world_locked;
              trace := [EvWait [0%nat]; EvTick] |}.
Proof.
  exact (waitForProcess_blocks_when_locked Sample.os 9 0%nat [] Fault.world_locked
           eq_refl).
Defined.

Lemma kill_delivery_strategy_witness :
  In (EvSignal 0%nat Sample.SIGTERM None)
     (new_events (kill Sample.os 10 Sample.SIGTERM) Sample.world_running) ∧
  kill_event false (EvSignal 0%nat Sample.SIGTERM None).
Proof.
  assert (Hin : In (EvSignal 0%nat Sample.SIGTERM None)
                  (new_events (kill Sample.os 10 Sample.SIGTERM) Sample.world_running))
    by (vm_compute; auto 10).
  split; [exact Hin|].
  exact (kill_delivery_strategy Sample.os 10 Sample.SIGTERM Sample.world_running
           _ Hin).
Defined.

Lemma kill_wait_set_witness :
  sublist [0%nat] (commands (d Sample.world_running)) ∧
  ∀ v, In v [0%nat] ↔
       In (EvDelivered v None)
          (new_events (kill Sample.os 10 Sample.SIGTERM) Sample.world_running).
Proof.
  apply (kill_wait_set Sample.os 10 Sample.SIGTERM Sample.world_running [0%nat]).
  vm_compute. auto 10.
Defined.

Lemma kill_mappable_signal_witness :
  ∃ c err,
    In (EvKill 0%nat c ["sudo"; "kill"; "-15"; "4242"])
       (new_events (kill Sample.os 10 Sample.SIGTERM) Sample.world_sudo_running) ∧
    In (EvDelivered 0%nat err)
       (new_events (kill Sample.os 10 Sample.SIGTERM) Sample.world_sudo_running).
Proof.
  destruct (kill_mappable_signal Sample.os 10 15 Sample.world_sudo_running 0%nat
              Sample.build_running 4242)
    as (c & err & Hk & _ & Hd).
  - lia.
  - reflexivity.
  - reflexivity.
  - reflexivity.
  - vm_compute. auto 10.
  - exists c, err. split; [exact Hk|exact Hd].
Defined.

Lemma kill_empty_registry_witness :
  kill Sample.os 10 Sample.SIGTERM Fault.world_new =
    Returns tt {| d := d Fault.world_new; heap := [];
                  trace := [EvWait []; EvTick] |}.
Proof.
  exact (kill_empty_registry Sample.os 9 Sample.SIGTERM Fault.world_new eq_refl).
Defined.

Lemma kill_blocks_after_first_exited_witness :
  ∃ w',
    kill Sample.os 10 Sample.SIGTERM Sample.world_created_running = Blocks w' ∧
    trace w' = [EvLock; EvProcessState InKill 0%nat true].
Proof.
  exact (kill_blocks_after_first_exited Sample.os 10 Sample.SIGTERM
           Sample.world_created_running 0%nat 1%nat [] Sample.volume_created
           "exit status 0" eq_refl eq_refl eq_refl eq_refl).
Defined.

Lemma kill_twice_witness :
  ∃ w',
    kill Sample.os 10 Sample.SIGTERM Sample.world_created = Returns tt w' ∧
    mutex (d w') = true ∧
    ∀ fuel' sig', kill Sample.os fuel' sig' w' = Blocks w'.
Proof.
  exact (kill_twice Sample.os 9 Sample.SIGTERM Sample.world_created 0%nat
           Sample.volume_created "exit status 0" eq_refl eq_refl eq_refl eq_refl).
Defined.

Lemma kill_after_failed_start_witness :
  ∃ w1 w2,
    execDockerCommand Fault.os_not_started
      ["volume"; "create"; "--name"; "SD_LAUNCH_BIN"] Fault.world_new =
      Returns (Some "fork/exec /usr/bin/docker: permission denied") w1 ∧
    commands (d w1) = [0%nat] ∧
    kill Fault.os_not_started 10 Sample.SIGTERM w1 =
      Panics "invalid memory address or nil pointer dereference" w2.
Proof.
  apply (kill_after_failed_start Fault.os_not_started 10 Sample.SIGTERM
           ["volume"; "create"; "--name"; "SD_LAUNCH_BIN"] Fault.world_new
           "fork/exec /usr/bin/docker: permission denied").
  - reflexivity.
  - reflexivity.
  - reflexivity.
  - intros t. reflexivity.
Defined.

Lemma kill_running_returns_witness :
  ∃ w' killed,
    kill Sample.os 10 Sample.SIGTERM Sample.world_running = Returns tt w' ∧
    mutex (d w') = false ∧
    In (EvWait killed)
       (new_events (kill Sample.os 10 Sample.SIGTERM) Sample.world_running) ∧
    last (trace w') =
      Some (match killed with
            | [] => EvTick
            | _ :: _ => EvLog WarnLevel timeout_error
            end).
Proof.
  apply (kill_running_returns Sample.os 10 Sample.SIGTERM Sample.world_running).
  - lia.
  - reflexivity.
  - constructor; [|constructor].
    exists Sample.build_running, 4242. split; reflexivity.
  - constructor; [|constructor].
    exists Sample.build_running.
    split; [reflexivity|]. split; [reflexivity|]. intros t. reflexivity.
Defined.

Lemma kill_exited_keeps_mutex_witness :
  mutex (d (final (kill Sample.os 10 Sample.SIGTERM Sample.world_created))) = true.
Proof.
  apply (kill_exited_keeps_mutex Sample.os 10 Sample.SIGTERM Sample.world_created
           0%nat).
  vm_compute. auto.
Defined.

Lemma Kill_after_Run_blocks_witness :
  let l := {| l_buildEntry := l_buildEntry Sample.launcher;
              l_runner := docker_runner (H := GoRef.lib) Sample.os |} in
  ∃ w',
    Run Sample.os l Fault.world_new = Returns None w' ∧
    ∀ fuel sig, ∃ w'',
      Kill l fuel sig w' = Blocks w'' ∧
      trace w'' = trace w' ++ [EvLock; EvProcessState InKill 0%nat true].
Proof.
  destruct (json_Marshal (GoLib := GoRef.lib) (l_buildEntry Sample.launcher))
    as [configJSON|e] eqn:Hj; [|vm_compute in Hj; discriminate Hj].
  apply (Kill_after_Run_blocks (L := GoRef.lib) Sample.os
           (l_buildEntry Sample.launcher) Fault.world_new
           (default_layer (L := GoRef.lib) Sample.options) []
           "/usr/bin/docker" configJSON).
  - reflexivity.
  - intros c argv. reflexivity.
  - vm_compute. reflexivity.
  - exact Hj.
  - reflexivity.
  - reflexivity.
Defined.

Lemma registry_stays_ok_witness :
  registry_ok
    (final (kill Sample.os 10 Sample.SIGTERM Sample.world_created_running)) ∧
  registry_ok (final (clean Sample.os Sample.world_created_running)).
Proof.
  destruct (registry_stays_ok (L := GoRef.lib) Sample.os
              Sample.world_created_running (l_buildEntry Sample.launcher)
              10 Sample.SIGTERM)
    as (_ & _ & Hkill & Hclean).
  - split.
    + apply (bool_decide_unpack _). vm_compute. exact I.
    + repeat constructor; cbn; lia.
  - split; [exact Hkill|exact Hclean].
Defined.
